(** * Minesweeper knowledge engine: embedding of [minesweeper.py]

    The Python classes [Sentence] and [MinesweeperAI] are embedded as
    records with explicit state passing.  A method is a function from the
    object's state to a [result]: either a normal return with the new
    state, or a raised exception together with the state the object was
    left in when the exception escaped.  The board class [Minesweeper] is
    embedded with its list of rows, Python's list indexing and the values
    drawn by [random.randrange] given as a list. *)

From stdpp Require Import gmap strings list sorting.

Local Open Scope Z_scope.

(** ** Python values used by the engine *)

(** A cell is a tuple [(i, j)] of two Python integers. *)
Definition Cell : Type := Z * Z.

(** The only exception the engine's own code can raise. *)
Inductive exn : Type :=
  | AttributeError (cls attr : string).

#[global] Instance exn_eq_dec : EqDecision exn.
Proof. solve_decision. Defined.

(** ** Outcome of running a method on an object of state [S] *)

Inductive result (S A : Type) : Type :=
  | Ok (a : A) (s : S)
  | Raised (e : exn) (s : S).
Arguments Ok {S A} a s.
Arguments Raised {S A} e s.

Definition state_of {S A} (r : result S A) : S :=
  match r with Ok _ s => s | Raised _ s => s end.

Definition raises {S A} (r : result S A) : bool :=
  match r with Ok _ _ => false | Raised _ _ => true end.

Definition M (S A : Type) : Type := S → result S A.

Definition ret {S A} (a : A) : M S A := λ s, Ok a s.

Definition bind {S A B} (m : M S A) (k : A → M S B) : M S B :=
  λ s, match m s with
       | Ok a s' => k a s'
       | Raised e s' => Raised e s'
       end.

Definition raise {S A} (e : exn) : M S A := λ s, Raised e s.
Definition get {S} : M S S := λ s, Ok s s.
Definition modify {S} (f : S → S) : M S unit := λ s, Ok tt (f s).

Notation "x <- m ; k" := (bind m (λ x, k))
  (at level 20, m at level 100, k at level 200, only parsing).

(** [for x in xs: acc = body(acc, x)]: a loop over a list that carries
    the local variables [acc] and stops at the first exception. *)
Fixpoint for_each {S A B} (body : B → A → M S B) (acc : B) (xs : list A) : M S B :=
  match xs with
  | [] => ret acc
  | x :: rest => acc' <- body acc x ; for_each body acc' rest
  end.

(** ** class Sentence *)

Module Sentence.

(** [__init__] stores exactly two attributes: [cells] and [count]. *)
Record t : Type := mk { cells : gset Cell; count : Z }.

#[global] Instance eq_dec : EqDecision t.
Proof. solve_decision. Defined.

(** [Sentence(cells, count)]: [self.cells = set(cells)]. *)
Definition init (cells : gset Cell) (count : Z) : t := mk cells count.

(** [__eq__] *)
Definition eqb (self other : t) : bool :=
  bool_decide (cells self = cells other) && bool_decide (count self = count other).

(** Attribute values a sentence can hold. *)
Inductive attr_value : Type :=
  | VCells (s : gset Cell)
  | VCount (n : Z).

(** [self.<name>]: any name other than the two set by [__init__]
    raises [AttributeError]. *)
Definition getattr (name : string) : M t attr_value :=
  λ self,
    if decide (name = "cells") then Ok (VCells (cells self)) self
    else if decide (name = "count") then Ok (VCount (count self)) self
    else Raised (AttributeError "Sentence" name) self.

(** [len(self.cells)] as a Python integer. *)
Definition len_cells (self : t) : Z := Z.of_nat (size (cells self)).

Definition known_mines : M t (gset Cell) :=
  self <- get ;
  if decide (len_cells self = count self) then ret (cells self)
  else ret ∅.

Definition known_safes : M t (gset Cell) :=
  self <- get ;
  if decide (len_cells self = count self) then ret ∅
  else if decide (count self = 0) then ret (cells self)
  else ret ∅.

(** [mark_mine] starts with [self.mines.add(cell)] and then iterates
    [self.knowledge]; a sentence has neither attribute, so the body of
    that loop is never reached. *)
Definition mark_mine (cell : Cell) : M t unit :=
  _mines <- getattr "mines" ;
  _knowledge <- getattr "knowledge" ;
  ret tt.

(** [mark_safe] starts with [self.safe.add(cell)] and then iterates
    [self.knowledge]. *)
Definition mark_safe (cell : Cell) : M t unit :=
  _safe <- getattr "safe" ;
  _knowledge <- getattr "knowledge" ;
  ret tt.

End Sentence.

(** ** class MinesweeperAI *)

Module MinesweeperAI.

Record t : Type := mk {
  height : Z;
  width : Z;
  moves_made : gset Cell;
  mines : gset Cell;
  safes : gset Cell;
  knowledge : list Sentence.t
}.

(** [__init__(height, width)] *)
Definition init (height width : Z) : t := mk height width ∅ ∅ ∅ [].

Definition set_moves_made (v : gset Cell) (self : t) : t :=
  mk (height self) (width self) v (mines self) (safes self) (knowledge self).
Definition set_mines (v : gset Cell) (self : t) : t :=
  mk (height self) (width self) (moves_made self) v (safes self) (knowledge self).
Definition set_safes (v : gset Cell) (self : t) : t :=
  mk (height self) (width self) (moves_made self) (mines self) v (knowledge self).
Definition set_knowledge (v : list Sentence.t) (self : t) : t :=
  mk (height self) (width self) (moves_made self) (mines self) (safes self) v.

(** [for sentence in l: acc = body(acc)] where [body] is a method run
    on [sentence]; the sentence objects live in the list, so whatever a
    method does to a sentence is written back at its position. *)
Fixpoint for_sentences {A} (body : A → M Sentence.t A) (acc : A)
    (l : list Sentence.t) : result (list Sentence.t) A :=
  match l with
  | [] => Ok acc []
  | sentence :: rest =>
      match body acc sentence with
      | Raised e sentence' => Raised e (sentence' :: rest)
      | Ok acc' sentence' =>
          match for_sentences body acc' rest with
          | Ok a rest' => Ok a (sentence' :: rest')
          | Raised e rest' => Raised e (sentence' :: rest')
          end
      end
  end.

(** [for sentence in self.knowledge: ...] *)
Definition for_sentence_in_knowledge {A} (body : A → M Sentence.t A) (acc : A) : M t A :=
  λ self,
    match for_sentences body acc (knowledge self) with
    | Ok a l => Ok a (set_knowledge l self)
    | Raised e l => Raised e (set_knowledge l self)
    end.

Definition mark_mine (cell : Cell) : M t unit :=
  _ <- modify (λ self, set_mines (mines self ∪ {[cell]}) self) ;
  for_sentence_in_knowledge (λ _, Sentence.mark_mine cell) tt.

Definition mark_safe (cell : Cell) : M t unit :=
  _ <- modify (λ self, set_safes (safes self ∪ {[cell]}) self) ;
  for_sentence_in_knowledge (λ _, Sentence.mark_safe cell) tt.

(** *** The function defined inside [add_knowledge]

    The body of [add_knowledge] consists of a docstring and one nested
    [def add_knowledge(self, cell, count)].  The nested function is
    embedded here as written.  Iterating a Python set visits its members
    in an order the language leaves open: [set_order] gives that order. *)

Section NestedFunction.

Variable set_order : gset Cell → list Cell.

(** Step 3: the neighbours that are not known to be safe or mines. *)
Definition neighbors_of (cell : Cell) (self : t) : gset Cell :=
  let '(i, j) := cell in
  foldl (λ neighbors di,
    foldl (λ neighbors dj,
      if bool_decide (di = 0) && bool_decide (dj = 0) then neighbors
      else
        let ni := i + di in
        let nj := j + dj in
        if decide ((0 ≤ ni ∧ ni < height self) ∧ (0 ≤ nj ∧ nj < width self)) then
          let neighbor := (ni, nj) in
          if decide ((neighbor ∉ safes self) ∧ (neighbor ∉ mines self))
          then neighbors ∪ {[neighbor]}
          else neighbors
        else neighbors)
      neighbors [-1; 0; 1])
    ∅ [-1; 0; 1].

(** Steps 1 to 4. *)
Definition record_cell (cell : Cell) (count : Z) : M t unit :=
  _ <- modify (λ self, set_moves_made (moves_made self ∪ {[cell]}) self) ;
  _ <- mark_safe cell ;
  self <- get ;
  let neighbors := neighbors_of cell self in
  if decide (neighbors ≠ ∅) then
    let new_sentence := Sentence.init neighbors count in
    modify (λ self, set_knowledge (knowledge self ++ [new_sentence]) self)
  else ret tt.

(** [x in l] for a list of sentences: compares with [__eq__]. *)
Definition sentence_in (x : Sentence.t) (l : list Sentence.t) : bool :=
  existsb (Sentence.eqb x) l.

(** Body of the two nested loops of step 6 for one pair [(s1, s2)]. *)
Definition infer_pair (known new_inferences : list Sentence.t)
    (s1 s2 : Sentence.t) : list Sentence.t :=
  if Sentence.eqb s1 s2 then new_inferences
  else if decide (Sentence.cells s1 ⊆ Sentence.cells s2) then
    let diff_cells := Sentence.cells s2 ∖ Sentence.cells s1 in
    let diff_count := Sentence.count s2 - Sentence.count s1 in
    if decide (diff_cells ≠ ∅) then
      let inferred := Sentence.init diff_cells diff_count in
      if negb (sentence_in inferred known) && negb (sentence_in inferred new_inferences)
      then new_inferences ++ [inferred]
      else new_inferences
    else new_inferences
  else new_inferences.

Definition infer_all (known : list Sentence.t) : list Sentence.t :=
  foldl (λ new_inferences s1,
    foldl (λ new_inferences s2, infer_pair known new_inferences s1 s2)
      new_inferences known)
    [] known.

(** Body of [for sentence in self.knowledge:] at the start of a pass, run
    on [sentence]; [found] holds the local sets [safes] and [mines]. *)
Definition collect_known (found : gset Cell * gset Cell)
    : M Sentence.t (gset Cell * gset Cell) :=
  let '(safes, mines) := found in
  ks <- Sentence.known_safes ;
  km <- Sentence.known_mines ;
  ret (safes ∪ ks, mines ∪ km).

(** Body of [for safe in safes:]. *)
Definition mark_found_safe (changed : bool) (safe : Cell) : M t bool :=
  self <- get ;
  if decide (safe ∉ safes self)
  then (_ <- mark_safe safe ; ret true)
  else ret changed.

(** Body of [for mine in mines:]. *)
Definition mark_found_mine (changed : bool) (mine : Cell) : M t bool :=
  self <- get ;
  if decide (mine ∉ mines self)
  then (_ <- mark_mine mine ; ret true)
  else ret changed.

(** One execution of the body of [while changed:]; the result is the
    value of [changed] when the body ends. *)
Definition propagation_pass : M t bool :=
  found <- for_sentence_in_knowledge collect_known (∅, ∅) ;
  let '(safes_found, mines_found) := found in
  changed <- for_each mark_found_safe false (set_order safes_found) ;
  changed <- for_each mark_found_mine changed (set_order mines_found) ;
  self <- get ;
  let new_inferences := infer_all (knowledge self) in
  match new_inferences with
  | [] => ret changed
  | _ :: _ =>
      _ <- modify (set_knowledge (knowledge self ++ new_inferences)) ;
      ret true
  end.

(** [changed = True; while changed: ...].  [fuel] bounds the number of
    passes; [None] means the bound was reached with [changed] still
    true. *)
Fixpoint propagate (fuel : nat) (self : t) : option (result t unit) :=
  match fuel with
  | O => None
  | S fuel' =>
      match propagation_pass self with
      | Raised e self' => Some (Raised e self')
      | Ok true self' => propagate fuel' self'
      | Ok false self' => Some (Ok tt self')
      end
  end.

Definition add_knowledge_nested (fuel : nat) (cell : Cell) (count : Z)
    (self : t) : option (result t unit) :=
  match record_cell cell count self with
  | Raised e self' => Some (Raised e self')
  | Ok _ self' => propagate fuel self'
  end.

End NestedFunction.

(** [add_knowledge]: the [def] statement binds the nested function to a
    local name, nothing calls it, and the method returns [None]. *)
Definition add_knowledge (cell : Cell) (count : Z) : M t unit :=
  let add_knowledge := add_knowledge_nested in
  ret tt.

(** *** Move selection *)

Section Moves.

Variable set_order : gset Cell → list Cell.

(** The value [random.choice] draws from [range(n)] to index its
    argument. *)
Variable randbelow : nat → nat.

Definition make_safe_move : M t (option Cell) :=
  self <- get ;
  ret (List.find (λ safe, bool_decide (safe ∉ moves_made self))
         (set_order (safes self))).

(** [set((i, j) for i in range(height) for j in range(width))] *)
Definition all_moves (self : t) : gset Cell :=
  list_to_set
    (seqZ 0 (height self) ≫= λ i, (λ j, (i, j)) <$> seqZ 0 (width self)).

Definition make_random_move : M t (option Cell) :=
  self <- get ;
  let possible_moves := all_moves self ∖ moves_made self ∖ mines self in
  if decide (possible_moves ≠ ∅) then
    let candidates := set_order possible_moves in
    ret (candidates !! randbelow (length candidates))
  else ret None.

End Moves.

(** *** Sequences of calls made by a client of the engine *)

Inductive call : Type :=
  | MarkSafe (cell : Cell)
  | MarkMine (cell : Cell)
  | AddKnowledge (cell : Cell) (count : Z).

Definition do_call (c : call) : M t unit :=
  match c with
  | MarkSafe cell => mark_safe cell
  | MarkMine cell => mark_mine cell
  | AddKnowledge cell count => add_knowledge cell count
  end.

Definition run (calls : list call) : M t unit :=
  for_each (λ _ c, do_call c) tt calls.

End MinesweeperAI.

(** ** class Minesweeper *)

Module Minesweeper.

(** The exceptions the board's code can raise: [random.randrange] on an
    empty range, and indexing a list out of range. *)
Inductive error : Type :=
  | ValueError
  | IndexError.

(** [self.board] is a list of rows, each a list of booleans. *)
Record t : Type := mk {
  height : Z;
  width : Z;
  mines : gset Cell;
  board : list (list bool);
  mines_found : gset Cell
}.

(** The position a Python index [i] denotes in a list of length [len]:
    indices from [-len] to [-1] count from the end. *)
Definition py_position (len : nat) (i : Z) : option nat :=
  if decide (0 ≤ i) then
    if decide (i < Z.of_nat len) then Some (Z.to_nat i) else None
  else
    if decide (- Z.of_nat len ≤ i) then Some (Z.to_nat (i + Z.of_nat len)) else None.

(** [l[i]]; [None] stands for [IndexError]. *)
Definition py_getitem {A} (l : list A) (i : Z) : option A :=
  match py_position (length l) i with
  | Some n => l !! n
  | None => None
  end.

(** [l[i] = v] *)
Definition py_setitem {A} (l : list A) (i : Z) (v : A) : option (list A) :=
  match py_position (length l) i with
  | Some n => Some (<[n := v]> l)
  | None => None
  end.

(** [self.board[i][j]] *)
Definition board_at (self : t) (i j : Z) : option bool :=
  match py_getitem (board self) i with
  | Some row => py_getitem row j
  | None => None
  end.

(** [self.board[i][j] = True] *)
Definition board_set (self : t) (i j : Z) : option (list (list bool)) :=
  match py_getitem (board self) i with
  | Some row =>
      match py_setitem row j true with
      | Some row' => py_setitem (board self) i row'
      | None => None
      end
  | None => None
  end.

(** The first part of [__init__]: the attributes and an all-[False] board
    of [height] rows and [width] columns ([range] of a negative number is
    empty). *)
Definition empty_field (height width : Z) : t :=
  mk height width ∅ (replicate (Z.to_nat height) (replicate (Z.to_nat width) false)) ∅.

(** [while len(self.mines) != mines: ...].  Each element of [draws] is the
    pair of values that the two calls of [random.randrange] return in one
    iteration; [None] means that the draws ran out with the loop still
    running.  [randrange(n)] raises [ValueError] when [n <= 0]. *)
Fixpoint place_mines (requested : Z) (draws : list Cell) (self : t)
    : option (error + t) :=
  if decide (Z.of_nat (size (mines self)) = requested) then Some (inr self)
  else if decide (height self ≤ 0) then Some (inl ValueError)
  else if decide (width self ≤ 0) then Some (inl ValueError)
  else
    match draws with
    | [] => None
    | (i, j) :: rest =>
        match board_at self i j with
        | None => Some (inl IndexError)
        | Some true => place_mines requested rest self
        | Some false =>
            match board_set self i j with
            | None => Some (inl IndexError)
            | Some board' =>
                place_mines requested rest
                  (mk (height self) (width self) (mines self ∪ {[ (i, j) ]})
                      board' (mines_found self))
            end
        end
    end.

(** [Minesweeper(height, width, mines)] *)
Definition init (height width requested : Z) (draws : list Cell) : option (error + t) :=
  place_mines requested draws (empty_field height width).

(** [is_mine(cell)] *)
Definition is_mine (self : t) (cell : Cell) : error + bool :=
  let '(i, j) := cell in
  match board_at self i j with
  | Some b => inr b
  | None => inl IndexError
  end.

(** Body of the inner loop of [nearby_mines] for one [(i, j)]. *)
Definition nearby_step (self : t) (cell : Cell) (count : error + Z) (i j : Z)
    : error + Z :=
  match count with
  | inl e => inl e
  | inr count =>
      if decide ((i, j) = cell) then inr count
      else if decide ((0 ≤ i ∧ i < height self) ∧ (0 ≤ j ∧ j < width self)) then
        match board_at self i j with
        | None => inl IndexError
        | Some true => inr (count + 1)
        | Some false => inr count
        end
      else inr count
  end.

(** [nearby_mines(cell)]: [range(a - 1, a + 2)] is [a - 1, a, a + 1]. *)
Definition nearby_mines (self : t) (cell : Cell) : error + Z :=
  foldl (λ count i,
    foldl (λ count j, nearby_step self cell count i j)
      count (seqZ (cell.2 - 1) 3))
    (inr 0) (seqZ (cell.1 - 1) 3).

(** [won()] *)
Definition won (self : t) : bool := bool_decide (mines_found self = mines self).

End Minesweeper.

(** ** Engine states and sentences used as examples *)

Definition sentence_01 : Sentence.t := Sentence.init {[ (0, 0); (0, 1) ]} 1.

(** An 8 by 8 engine whose knowledge base holds one sentence. *)
Definition engine_with_sentence : MinesweeperAI.t :=
  MinesweeperAI.mk 8 8 ∅ ∅ ∅ [sentence_01].

(** Two well-formed sentences, the first over a subset of the second's
    cells, that no mine layout satisfies together. *)
Definition sentence_0_none : Sentence.t := Sentence.init {[ (0, 0) ]} 0.
Definition sentence_01_both : Sentence.t := Sentence.init {[ (0, 0); (0, 1) ]} 2.

(** The sentences [{A, B, C} = 1] and [{A, B} = 1] with the mine at [A]. *)
Definition sentence_abc : Sentence.t := Sentence.init {[ (0, 0); (0, 1); (0, 2) ]} 1.
Definition sentence_ab : Sentence.t := Sentence.init {[ (0, 0); (0, 1) ]} 1.
Definition layout_a : gset Cell := {[ (0, 0) ]}.

(** A 2 by 2 engine after one move, with one known mine and one safe cell
    not yet played. *)
Definition engine_2x2 : MinesweeperAI.t :=
  MinesweeperAI.mk 2 2 {[ (0, 0) ]} {[ (1, 1) ]} {[ (0, 0); (0, 1) ]} [].

(** A 2 by 2 engine whose safe and mine sets are disjoint and whose three
    sentences are well-formed, but two of them disagree on the number of
    mines of the board. *)
Definition cells_bcd : gset Cell := {[ (0, 1); (1, 0); (1, 1) ]}.
Definition cells_abcd : gset Cell := {[ (0, 0); (0, 1); (1, 0); (1, 1) ]}.
Definition disagreeing_engine : MinesweeperAI.t :=
  MinesweeperAI.mk 2 2 ∅ cells_bcd {[ (0, 0) ]}
    [Sentence.init cells_abcd 1; Sentence.init cells_abcd 3; Sentence.init {[ (0, 0) ]} 0].

(** A 3 by 3 board with mines in two opposite corners, as the constructor
    builds it from the draws [(0,0)], [(0,0)] again and [(2,2)]. *)
Definition board_3x3 : Minesweeper.t :=
  Minesweeper.mk 3 3 {[ (0, 0); (2, 2) ]}
    [[true; false; false]; [false; false; false]; [false; false; true]] ∅.
Definition draws_3x3 : list Cell := [(0, 0); (0, 0); (2, 2)].

(** A 3 by 3 engine that already knows the mine at [(0,0)]. *)
Definition engine_knows_corner : MinesweeperAI.t :=
  MinesweeperAI.mk 3 3 ∅ {[ (0, 0) ]} ∅ [].

(** The engine the nested function leaves after the observation
    [((1,1), 2)] on a fresh 3 by 3 engine. *)
Definition engine_after_centre : MinesweeperAI.t :=
  MinesweeperAI.mk 3 3 {[ (1, 1) ]} ∅ {[ (1, 1) ]}
    [Sentence.init
       (list_to_set [(0, 0); (0, 1); (0, 2); (1, 0); (1, 2); (2, 0); (2, 1); (2, 2)]) 2].

(** ** Notions used to state the properties *)

(** The cells a sequence of calls passes to [mark_safe] and to
    [mark_mine]. *)
Definition marked_safe (calls : list MinesweeperAI.call) : gset Cell :=
  list_to_set (omap (λ c, match c with MinesweeperAI.MarkSafe cell => Some cell | _ => None end) calls).

Definition marked_mine (calls : list MinesweeperAI.call) : gset Cell :=
  list_to_set (omap (λ c, match c with MinesweeperAI.MarkMine cell => Some cell | _ => None end) calls).

(** A sentence is well-formed when its count lies between 0 and the
    number of its cells. *)
Definition well_formed (s : Sentence.t) : Prop :=
  0 ≤ Sentence.count s ≤ Z.of_nat (size (Sentence.cells s)).

(** A sentence holds of a mine layout when exactly [count] of its cells
    are mines of the layout. *)
Definition holds_of (layout : gset Cell) (s : Sentence.t) : Prop :=
  Z.of_nat (size (Sentence.cells s ∩ layout)) = Sentence.count s.

(** In-bounds cells of the engine's grid. *)
Definition on_grid (self : MinesweeperAI.t) (cell : Cell) : Prop :=
  (0 ≤ cell.1 ∧ cell.1 < MinesweeperAI.height self)
  ∧ (0 ≤ cell.2 ∧ cell.2 < MinesweeperAI.width self).

(** The three shapes of sentence that [disagreeing_engine] starts with and
    that subset inference keeps producing from them. *)
Definition disagreeing_shape (s : Sentence.t) : Prop :=
  (Sentence.cells s = cells_abcd ∧ (Sentence.count s = 1 ∨ Sentence.count s = 3))
  ∨ (Sentence.cells s = {[ (0, 0) ]} ∧ Z.even (Sentence.count s) = true)
  ∨ (Sentence.cells s = cells_bcd ∧ Z.odd (Sentence.count s) = true).

Definition disagreeing (self : MinesweeperAI.t) : Prop :=
  MinesweeperAI.safes self = {[ (0, 0) ]}
  ∧ MinesweeperAI.mines self = cells_bcd
  ∧ (∀ s, s ∈ MinesweeperAI.knowledge self → disagreeing_shape s)
  ∧ Sentence.init cells_abcd 1 ∈ MinesweeperAI.knowledge self
  ∧ Sentence.init cells_abcd 3 ∈ MinesweeperAI.knowledge self
  ∧ ∃ n, Sentence.init {[ (0, 0) ]} n ∈ MinesweeperAI.knowledge self.

(** [c] is one of the eight cells around [cell]. *)
Definition adjacent (cell c : Cell) : Prop :=
  c ≠ cell
  ∧ (cell.1 - 1 ≤ c.1 ∧ c.1 ≤ cell.1 + 1)
  ∧ (cell.2 - 1 ≤ c.2 ∧ c.2 ≤ cell.2 + 1).

#[global] Instance adjacent_dec (cell c : Cell) : Decision (adjacent cell c).
Proof. unfold adjacent. apply _. Defined.

(** The values [random.randrange] can return for a board of the given
    size. *)
Definition draws_in_range (height width : Z) (draws : list Cell) : Prop :=
  ∀ c, c ∈ draws → (0 ≤ c.1 ∧ c.1 < height) ∧ (0 ≤ c.2 ∧ c.2 < width).

(** The board is a [height] by [width] grid whose true entries are the
    members of [mines], all of them on the grid. *)
Definition board_consistent (self : Minesweeper.t) : Prop :=
  length (Minesweeper.board self) = Z.to_nat (Minesweeper.height self)
  ∧ (∀ row, row ∈ Minesweeper.board self →
       length row = Z.to_nat (Minesweeper.width self))
  ∧ (∀ c, c ∈ Minesweeper.mines self →
       (0 ≤ c.1 ∧ c.1 < Minesweeper.height self)
       ∧ (0 ≤ c.2 ∧ c.2 < Minesweeper.width self))
  ∧ (∀ i j,
       0 ≤ i ∧ i < Minesweeper.height self →
       0 ≤ j ∧ j < Minesweeper.width self →
       Minesweeper.board_at self i j
       = Some (bool_decide ((i, j) ∈ Minesweeper.mines self))).

(** [self'] has everything [self] has: the same grid, at least the same
    moves, safe cells and mines, and the sentences of [self] in the same
    order at the start of its own. *)
Definition grows (self self' : MinesweeperAI.t) : Prop :=
  MinesweeperAI.height self' = MinesweeperAI.height self
  ∧ MinesweeperAI.width self' = MinesweeperAI.width self
  ∧ MinesweeperAI.moves_made self ⊆ MinesweeperAI.moves_made self'
  ∧ MinesweeperAI.safes self ⊆ MinesweeperAI.safes self'
  ∧ MinesweeperAI.mines self ⊆ MinesweeperAI.mines self'
  ∧ MinesweeperAI.knowledge self `prefix_of` MinesweeperAI.knowledge self'.

(** A method that only ever adds to the engine, whether it returns or
    raises. *)
Definition only_adds {A} (m : M MinesweeperAI.t A) : Prop :=
  ∀ self, grows self (state_of (m self)).

(** A knowledge base closed under subset inference. *)
Definition closed_under_inference (known : list Sentence.t) : Prop :=
  ∀ s1 s2, s1 ∈ known → s2 ∈ known → s1 ≠ s2 →
    Sentence.cells s1 ⊆ Sentence.cells s2 →
    Sentence.cells s2 ∖ Sentence.cells s1 ≠ ∅ →
    Sentence.init (Sentence.cells s2 ∖ Sentence.cells s1)
      (Sentence.count s2 - Sentence.count s1) ∈ known.

(** * Properties *)

Import MinesweeperAI.

(** ** Sentences *)

Lemma sentence_eqb_eq (s1 s2 : Sentence.t) : Sentence.eqb s1 s2 = true ↔ s1 = s2.
Proof.
  unfold Sentence.eqb. rewrite andb_true_iff, !bool_decide_eq_true.
  destruct s1, s2; simpl. split.
  - intros [-> ->]. reflexivity.
  - intros [= -> ->]. split; reflexivity.
Qed.

Lemma sentence_eqb_refl (s : Sentence.t) : Sentence.eqb s s = true.
Proof. apply sentence_eqb_eq. reflexivity. Qed.

Lemma sentence_in_elem_of (x : Sentence.t) (l : list Sentence.t) :
  sentence_in x l = true ↔ x ∈ l.
Proof.
  unfold sentence_in. rewrite existsb_exists. split.
  - intros (y & Hy & Heq). apply sentence_eqb_eq in Heq. subst y.
    apply list_elem_of_In. exact Hy.
  - intros Hx. exists x. split; [apply list_elem_of_In; exact Hx | apply sentence_eqb_refl].
Qed.

(** What the two queries return, and that they return the sentence as it
    was. *)
Lemma known_mines_result (s : Sentence.t) :
  Sentence.known_mines s =
    Ok (if decide (Z.of_nat (size (Sentence.cells s)) = Sentence.count s)
        then Sentence.cells s else ∅) s.
Proof.
  unfold Sentence.known_mines, Sentence.len_cells, bind, get, ret.
  destruct (decide _); reflexivity.
Qed.

Lemma known_safes_result (s : Sentence.t) :
  Sentence.known_safes s =
    Ok (if decide (Sentence.count s = 0) then Sentence.cells s else ∅) s.
Proof.
  unfold Sentence.known_safes, Sentence.len_cells, bind, get, ret.
  destruct (decide (Z.of_nat (size (Sentence.cells s)) = Sentence.count s)) as [Hlen|Hlen];
    destruct (decide (Sentence.count s = 0)) as [Hzero|Hzero]; try reflexivity.
  (* both tests succeed: the sentence has no cells at all *)
  assert (Hsize : size (Sentence.cells s) = 0%nat) by lia.
  apply size_empty_inv in Hsize. apply leibniz_equiv in Hsize.
  rewrite Hsize. reflexivity.
Qed.

Lemma sentence_mark_mine_raises (cell : Cell) (s : Sentence.t) :
  Sentence.mark_mine cell s = Raised (AttributeError "Sentence" "mines") s.
Proof. reflexivity. Qed.

Lemma sentence_mark_safe_raises (cell : Cell) (s : Sentence.t) :
  Sentence.mark_safe cell s = Raised (AttributeError "Sentence" "safe") s.
Proof. reflexivity. Qed.

(** ** [known_mines] and [known_safes] *)

(** C5: [known_mines] returns the sentence's cells when their number equals
    [count] and the empty set otherwise; [known_safes] returns the cells
    when [count] is 0 and the empty set otherwise; both return with the
    sentence unchanged. *)
Theorem known_mines_known_safes_spec (s : Sentence.t) :
  Sentence.known_mines s =
    Ok (if decide (Z.of_nat (size (Sentence.cells s)) = Sentence.count s)
        then Sentence.cells s else ∅) s
  ∧ Sentence.known_safes s =
    Ok (if decide (Sentence.count s = 0) then Sentence.cells s else ∅) s.
Proof. split; [apply known_mines_result | apply known_safes_result]. Qed.

(** ** Marking a cell on the engine *)

Lemma set_knowledge_same (self : t) : set_knowledge (knowledge self) self = self.
Proof. destruct self; reflexivity. Qed.

(** With an empty knowledge base the loop over sentences has nothing to
    call, so marking only grows the engine's own set. *)
Lemma mark_mine_empty (cell : Cell) (self : t) :
  knowledge self = [] →
  mark_mine cell self = Ok tt (set_mines (mines self ∪ {[cell]}) self).
Proof.
  intros HK. unfold mark_mine, bind, modify, for_sentence_in_knowledge. simpl.
  rewrite HK. simpl. rewrite <- HK at 1.
  destruct self; simpl in *; subst; reflexivity.
Qed.

Lemma mark_safe_empty (cell : Cell) (self : t) :
  knowledge self = [] →
  mark_safe cell self = Ok tt (set_safes (safes self ∪ {[cell]}) self).
Proof.
  intros HK. unfold mark_safe, bind, modify, for_sentence_in_knowledge. simpl.
  rewrite HK. simpl.
  destruct self; simpl in *; subst; reflexivity.
Qed.

(** With at least one sentence the first call into [Sentence] raises,
    after the engine's own set has been updated. *)
Lemma mark_mine_nonempty (cell : Cell) (self : t) :
  knowledge self ≠ [] →
  mark_mine cell self =
    Raised (AttributeError "Sentence" "mines") (set_mines (mines self ∪ {[cell]}) self).
Proof.
  intros HK. unfold mark_mine, bind, modify, for_sentence_in_knowledge. simpl.
  destruct self as [h w mm mi sa K]; simpl in *.
  destruct K as [|s K]; [congruence|]. reflexivity.
Qed.

Lemma mark_safe_nonempty (cell : Cell) (self : t) :
  knowledge self ≠ [] →
  mark_safe cell self =
    Raised (AttributeError "Sentence" "safe") (set_safes (safes self ∪ {[cell]}) self).
Proof.
  intros HK. unfold mark_safe, bind, modify, for_sentence_in_knowledge. simpl.
  destruct self as [h w mm mi sa K]; simpl in *.
  destruct K as [|s K]; [congruence|]. reflexivity.
Qed.

(** In every case the engine is left with the cell added to its own set
    and with its sentences as they were; the call raises exactly when
    there is a sentence. *)
Lemma mark_mine_state (cell : Cell) (self : t) :
  state_of (mark_mine cell self) = set_mines (mines self ∪ {[cell]}) self
  ∧ (raises (mark_mine cell self) = true ↔ knowledge self ≠ []).
Proof.
  destruct (knowledge self) as [|s K] eqn:HK.
  - rewrite mark_mine_empty by exact HK. simpl. split; [reflexivity|].
    split; [discriminate | intros Hne; destruct Hne; reflexivity].
  - rewrite mark_mine_nonempty by (rewrite HK; discriminate). simpl.
    split; [reflexivity|]. split; [discriminate | reflexivity].
Qed.

Lemma mark_safe_state (cell : Cell) (self : t) :
  state_of (mark_safe cell self) = set_safes (safes self ∪ {[cell]}) self
  ∧ (raises (mark_safe cell self) = true ↔ knowledge self ≠ []).
Proof.
  destruct (knowledge self) as [|s K] eqn:HK.
  - rewrite mark_safe_empty by exact HK. simpl. split; [reflexivity|].
    split; [discriminate | intros Hne; destruct Hne; reflexivity].
  - rewrite mark_safe_nonempty by (rewrite HK; discriminate). simpl.
    split; [reflexivity|]. split; [discriminate | reflexivity].
Qed.

(** ** [mark_mine] and [mark_safe] on chosen engines *)

(** C3: on an engine holding one sentence both [mark_mine] and [mark_safe]
    raise [AttributeError] from inside the [Sentence] method. *)
Theorem mark_raises_with_sentence :
  mark_mine (0, 0) engine_with_sentence =
    Raised (AttributeError "Sentence" "mines")
      (set_mines {[ (0, 0) ]} engine_with_sentence)
  ∧ mark_safe (0, 0) engine_with_sentence =
    Raised (AttributeError "Sentence" "safe")
      (set_safes {[ (0, 0) ]} engine_with_sentence).
Proof.
  split.
  - rewrite mark_mine_nonempty by discriminate. simpl. rewrite (left_id_L ∅ (∪)). reflexivity.
  - rewrite mark_safe_nonempty by discriminate. simpl. rewrite (left_id_L ∅ (∪)). reflexivity.
Qed.

(** C4: on an engine holding the sentence [{(0,0), (0,1)} = 1], marking
    [(0,0)] puts the cell into the engine's set, but the sentence keeps
    the cell and its count, and the call ends in an exception. *)
Theorem mark_leaves_sentence_untouched :
  let after_mine := mark_mine (0, 0) engine_with_sentence in
  let after_safe := mark_safe (0, 0) engine_with_sentence in
  (raises after_mine = true
   ∧ (0, 0) ∈ mines (state_of after_mine)
   ∧ knowledge (state_of after_mine) = [sentence_01]
   ∧ (0, 0) ∈ Sentence.cells sentence_01 ∧ Sentence.count sentence_01 = 1)
  ∧ (raises after_safe = true
     ∧ (0, 0) ∈ safes (state_of after_safe)
     ∧ knowledge (state_of after_safe) = [sentence_01]).
Proof.
  cbv zeta.
  rewrite mark_mine_nonempty, mark_safe_nonempty by discriminate. simpl.
  repeat split; try reflexivity; set_solver.
Qed.

(** C10: marking the same cell twice in a row, as mine or as safe, gives
    the same outcome and the same engine state as marking it once; this
    holds both when the second call is sequenced after the first and when
    it is made on the state the first call left behind. *)
Theorem mark_twice_same_as_once (cell : Cell) (self : t) :
  (mark_safe cell (state_of (mark_safe cell self)) = mark_safe cell self
   ∧ (_ <- mark_safe cell ; mark_safe cell) self = mark_safe cell self)
  ∧ (mark_mine cell (state_of (mark_mine cell self)) = mark_mine cell self
     ∧ (_ <- mark_mine cell ; mark_mine cell) self = mark_mine cell self).
Proof.
  assert (Hidem : ∀ X : gset Cell, X ∪ {[cell]} ∪ {[cell]} = X ∪ {[cell]}).
  { intros X. rewrite <- (assoc_L (∪)), (idemp_L (∪)). reflexivity. }
  destruct self as [h w mm mi sa K].
  destruct K as [|s K].
  - unfold bind.
    rewrite !mark_safe_empty, !mark_mine_empty by reflexivity.
    unfold set_safes, set_mines; simpl. rewrite !Hidem. repeat split; reflexivity.
  - unfold bind.
    rewrite !mark_safe_nonempty, !mark_mine_nonempty by discriminate.
    unfold set_safes, set_mines; simpl. rewrite !Hidem. repeat split; reflexivity.
Qed.

(** ** Subset inference *)

(** A pair of sentences contributes at most one sentence, and only when
    the first one's cells are a subset of the second one's. *)
Lemma infer_pair_cases (known acc : list Sentence.t) (s1 s2 : Sentence.t) :
  infer_pair known acc s1 s2 = acc
  ∨ (Sentence.cells s1 ⊆ Sentence.cells s2
     ∧ Sentence.cells s2 ∖ Sentence.cells s1 ≠ ∅
     ∧ infer_pair known acc s1 s2 =
         acc ++ [Sentence.init (Sentence.cells s2 ∖ Sentence.cells s1)
                   (Sentence.count s2 - Sentence.count s1)]).
Proof.
  unfold infer_pair.
  destruct (Sentence.eqb s1 s2); [left; reflexivity|].
  destruct (decide (Sentence.cells s1 ⊆ Sentence.cells s2)) as [Hsub|]; [|left; reflexivity].
  destruct (decide (Sentence.cells s2 ∖ Sentence.cells s1 ≠ ∅)) as [Hne|]; [|left; reflexivity].
  destruct (negb _ && negb _); [right; auto | left; reflexivity].
Qed.

(** A sentence in the list of new inferences after a pair [(s1, s2)] was
    there before, or is the pair's candidate. *)
Lemma infer_pair_elem (known acc : list Sentence.t) (s1 s2 s : Sentence.t) :
  s ∈ infer_pair known acc s1 s2 →
  s ∈ acc
  ∨ (Sentence.cells s1 ⊆ Sentence.cells s2
     ∧ Sentence.cells s2 ∖ Sentence.cells s1 ≠ ∅
     ∧ s = Sentence.init (Sentence.cells s2 ∖ Sentence.cells s1)
             (Sentence.count s2 - Sentence.count s1)).
Proof.
  intros Hs.
  destruct (infer_pair_cases known acc s1 s2) as [Heq | (Hsub & Hne & Heq)];
    rewrite Heq in Hs; [left; exact Hs|].
  apply elem_of_app in Hs as [Hs | Hs]; [left; exact Hs|].
  apply list_elem_of_singleton in Hs. right. auto.
Qed.

Lemma infer_row_elem (known l acc : list Sentence.t) (s1 s : Sentence.t) :
  s ∈ foldl (λ new_inferences s2, infer_pair known new_inferences s1 s2) acc l →
  s ∈ acc
  ∨ ∃ s2, s2 ∈ l ∧ Sentence.cells s1 ⊆ Sentence.cells s2
          ∧ Sentence.cells s2 ∖ Sentence.cells s1 ≠ ∅
          ∧ s = Sentence.init (Sentence.cells s2 ∖ Sentence.cells s1)
                  (Sentence.count s2 - Sentence.count s1).
Proof.
  revert acc. induction l as [|s2 l IH]; intros acc Hs; [left; exact Hs|].
  cbn [foldl] in Hs. apply IH in Hs as [Hs | (s2' & Hin & Hrest)].
  - apply infer_pair_elem in Hs as [Hs | Hrest]; [left; exact Hs|].
    right. exists s2. split; [apply list_elem_of_here | exact Hrest].
  - right. exists s2'. split; [apply list_elem_of_further, Hin | exact Hrest].
Qed.

Lemma infer_rows_elem (known l acc : list Sentence.t) (s : Sentence.t) :
  s ∈ foldl (λ new_inferences s1,
        foldl (λ new_inferences s2, infer_pair known new_inferences s1 s2)
          new_inferences known) acc l →
  s ∈ acc
  ∨ ∃ s1 s2, s1 ∈ l ∧ s2 ∈ known ∧ Sentence.cells s1 ⊆ Sentence.cells s2
             ∧ Sentence.cells s2 ∖ Sentence.cells s1 ≠ ∅
             ∧ s = Sentence.init (Sentence.cells s2 ∖ Sentence.cells s1)
                     (Sentence.count s2 - Sentence.count s1).
Proof.
  revert acc. induction l as [|s1 l IH]; intros acc Hs; [left; exact Hs|].
  cbn [foldl] in Hs. apply IH in Hs as [Hs | (s1' & s2 & Hin1 & Hrest)].
  - apply infer_row_elem in Hs as [Hs | (s2 & Hin2 & Hrest)]; [left; exact Hs|].
    right. exists s1, s2. split; [apply list_elem_of_here | auto].
  - right. exists s1', s2. split; [apply list_elem_of_further, Hin1 | exact Hrest].
Qed.

(** Every sentence a pass infers is the non-empty difference of two
    sentences of the knowledge base, the first over a subset of the
    second's cells. *)
Lemma infer_all_elem (known : list Sentence.t) (s : Sentence.t) :
  s ∈ infer_all known →
  ∃ s1 s2, s1 ∈ known ∧ s2 ∈ known ∧ Sentence.cells s1 ⊆ Sentence.cells s2
           ∧ Sentence.cells s2 ∖ Sentence.cells s1 ≠ ∅
           ∧ s = Sentence.init (Sentence.cells s2 ∖ Sentence.cells s1)
                   (Sentence.count s2 - Sentence.count s1).
Proof.
  intros Hs. apply infer_rows_elem in Hs as [Hs | Hs]; [inversion Hs | exact Hs].
Qed.

(** A pair leaves the list of new inferences empty only if that list was
    empty and the pair's candidate, if it has one, is already known. *)
Lemma infer_pair_nil (known acc : list Sentence.t) (s1 s2 : Sentence.t) :
  infer_pair known acc s1 s2 = [] →
  acc = []
  ∧ (s1 ≠ s2 → Sentence.cells s1 ⊆ Sentence.cells s2 →
     Sentence.cells s2 ∖ Sentence.cells s1 ≠ ∅ →
     Sentence.init (Sentence.cells s2 ∖ Sentence.cells s1)
       (Sentence.count s2 - Sentence.count s1) ∈ known).
Proof.
  unfold infer_pair. intros Hnil.
  destruct (Sentence.eqb s1 s2) eqn:Heqb.
  { apply sentence_eqb_eq in Heqb. split; [exact Hnil | intros Hne; contradiction]. }
  destruct (decide (Sentence.cells s1 ⊆ Sentence.cells s2)) as [Hsub|Hnsub];
    [|split; [exact Hnil | intros; contradiction]].
  destruct (decide (Sentence.cells s2 ∖ Sentence.cells s1 ≠ ∅)) as [Hdiff|Hndiff];
    [|split; [exact Hnil | intros; contradiction]].
  destruct (sentence_in _ known) eqn:Hknown; simpl in Hnil.
  - split; [exact Hnil|]. intros _ _ _. apply sentence_in_elem_of, Hknown.
  - destruct (sentence_in _ acc) eqn:Hacc; simpl in Hnil.
    + subst acc. discriminate Hacc.
    + destruct acc; discriminate Hnil.
Qed.

Lemma infer_row_nil (known l acc : list Sentence.t) (s1 : Sentence.t) :
  foldl (λ new_inferences s2, infer_pair known new_inferences s1 s2) acc l = [] →
  acc = []
  ∧ ∀ s2, s2 ∈ l → s1 ≠ s2 → Sentence.cells s1 ⊆ Sentence.cells s2 →
      Sentence.cells s2 ∖ Sentence.cells s1 ≠ ∅ →
      Sentence.init (Sentence.cells s2 ∖ Sentence.cells s1)
        (Sentence.count s2 - Sentence.count s1) ∈ known.
Proof.
  revert acc. induction l as [|s2 l IH]; intros acc Hnil.
  - split; [exact Hnil | intros s2 Hin; inversion Hin].
  - cbn [foldl] in Hnil. apply IH in Hnil as [Hpair Hrest].
    apply infer_pair_nil in Hpair as [Hacc Hhere].
    split; [exact Hacc|]. intros s2' Hin.
    apply elem_of_cons in Hin as [-> | Hin]; [exact Hhere | apply Hrest, Hin].
Qed.

Lemma infer_rows_nil (known l acc : list Sentence.t) :
  foldl (λ new_inferences s1,
     foldl (λ new_inferences s2, infer_pair known new_inferences s1 s2)
       new_inferences known) acc l = [] →
  acc = []
  ∧ ∀ s1 s2, s1 ∈ l → s2 ∈ known → s1 ≠ s2 →
      Sentence.cells s1 ⊆ Sentence.cells s2 →
      Sentence.cells s2 ∖ Sentence.cells s1 ≠ ∅ →
      Sentence.init (Sentence.cells s2 ∖ Sentence.cells s1)
        (Sentence.count s2 - Sentence.count s1) ∈ known.
Proof.
  revert acc. induction l as [|s1 l IH]; intros acc Hnil.
  - split; [exact Hnil | intros s1 s2 Hin; inversion Hin].
  - cbn [foldl] in Hnil. apply IH in Hnil as [Hrow Hrest].
    apply infer_row_nil in Hrow as [Hacc Hhere].
    split; [exact Hacc|]. intros s1' s2 Hin.
    apply elem_of_cons in Hin as [-> | Hin]; [apply Hhere | apply Hrest, Hin].
Qed.

(** A pass infers nothing only when the knowledge base is closed under
    subset inference. *)
Lemma infer_all_nil (known : list Sentence.t) :
  infer_all known = [] →
  ∀ s1 s2, s1 ∈ known → s2 ∈ known → s1 ≠ s2 →
    Sentence.cells s1 ⊆ Sentence.cells s2 →
    Sentence.cells s2 ∖ Sentence.cells s1 ≠ ∅ →
    Sentence.init (Sentence.cells s2 ∖ Sentence.cells s1)
      (Sentence.count s2 - Sentence.count s1) ∈ known.
Proof. intros Hnil. apply (infer_rows_nil known known []), Hnil. Qed.

(** The mines among the cells of the larger sentence split into those
    among the smaller sentence's cells and those among the difference. *)
Lemma size_mines_split (layout X Y : gset Cell) :
  X ⊆ Y → size (Y ∩ layout) = (size (X ∩ layout) + size ((Y ∖ X) ∩ layout))%nat.
Proof.
  intros Hsub. rewrite <- size_union.
  - f_equal. apply leibniz_equiv. intros c.
    rewrite elem_of_union, !elem_of_intersection, elem_of_difference.
    split.
    + intros [HY HL]. destruct (decide (c ∈ X)); [left | right]; auto.
    + intros [[HX HL] | [[HY _] HL]]; split; auto.
  - intros c. rewrite !elem_of_intersection, elem_of_difference.
    intros [HX _] [[_ HnX] _]. exact (HnX HX).
Qed.

(** The difference of two sentences that hold of one layout holds of it
    too, and is therefore well-formed. *)
Lemma difference_holds (layout : gset Cell) (A B : Sentence.t) :
  holds_of layout A → holds_of layout B →
  Sentence.cells A ⊆ Sentence.cells B →
  holds_of layout
    (Sentence.init (Sentence.cells B ∖ Sentence.cells A)
       (Sentence.count B - Sentence.count A))
  ∧ well_formed
      (Sentence.init (Sentence.cells B ∖ Sentence.cells A)
         (Sentence.count B - Sentence.count A)).
Proof.
  unfold holds_of, well_formed, Sentence.init. cbn [Sentence.cells Sentence.count].
  intros HA HB Hsub.
  pose proof (size_mines_split layout _ _ Hsub) as Hsplit.
  assert (Hle : (size ((Sentence.cells B ∖ Sentence.cells A) ∩ layout)
                 ≤ size (Sentence.cells B ∖ Sentence.cells A))%nat).
  { apply subseteq_size. intros c Hc. apply elem_of_intersection in Hc as [Hc _]. exact Hc. }
  lia.
Qed.

(** C8, as stated, fails: [{(0,0)} = 0] and [{(0,0), (0,1)} = 2] are both
    well-formed and the first is over a subset of the second's cells, yet
    a pass over the two infers [{(0,1)} = 2], whose count exceeds the
    number of its cells. *)
Lemma inferred_count_out_of_range :
  let A := sentence_0_none in
  let B := sentence_01_both in
  let derived := Sentence.init (Sentence.cells B ∖ Sentence.cells A)
                   (Sentence.count B - Sentence.count A) in
  well_formed A ∧ well_formed B
  ∧ Sentence.cells A ⊆ Sentence.cells B
  ∧ infer_all [A; B] = [derived]
  ∧ derived = Sentence.init {[ (0, 1) ]} 2
  ∧ ¬ well_formed derived.
Proof.
  cbv zeta.
  assert (Hderived : Sentence.init
            (Sentence.cells sentence_01_both ∖ Sentence.cells sentence_0_none)
            (Sentence.count sentence_01_both - Sentence.count sentence_0_none)
          = Sentence.init {[ (0, 1) ]} 2) by (vm_compute; reflexivity).
  rewrite Hderived.
  assert (HA : well_formed sentence_0_none).
  { unfold well_formed, sentence_0_none, Sentence.init.
    cbn [Sentence.cells Sentence.count]. rewrite size_singleton. lia. }
  assert (HB : well_formed sentence_01_both).
  { unfold well_formed, sentence_01_both, Sentence.init.
    cbn [Sentence.cells Sentence.count].
    rewrite size_union, !size_singleton; [lia|].
    intros c Ha Hb. apply elem_of_singleton in Ha, Hb. congruence. }
  assert (Hsub : Sentence.cells sentence_0_none ⊆ Sentence.cells sentence_01_both).
  { unfold sentence_0_none, sentence_01_both, Sentence.init.
    cbn [Sentence.cells Sentence.count].
    intros c Hc. apply elem_of_union. left. exact Hc. }
  assert (Hpass : infer_all [sentence_0_none; sentence_01_both]
                  = [Sentence.init {[ (0, 1) ]} 2]) by (vm_compute; reflexivity).
  assert (Hbad : ¬ well_formed (Sentence.init {[ (0, 1) ]} 2)).
  { unfold well_formed, Sentence.init. cbn [Sentence.cells Sentence.count].
    rewrite size_singleton. lia. }
  auto 10.
Qed.

(** C8, amended: when two sentences [A] and [B] both hold of one mine
    layout and the cells of [A] are a subset of the cells of [B], the
    sentence with the cells of [B] not in [A] and the difference of the
    counts holds of that layout, so its count lies between 0 and the number
    of its cells; and it is the only sentence the inference step can add
    for the pair. *)
Theorem subset_inference_sound (layout : gset Cell) (A B : Sentence.t) :
  holds_of layout A → holds_of layout B →
  Sentence.cells A ⊆ Sentence.cells B →
  let derived := Sentence.init (Sentence.cells B ∖ Sentence.cells A)
                   (Sentence.count B - Sentence.count A) in
  holds_of layout derived
  ∧ well_formed derived
  ∧ ∀ known acc s, s ∈ infer_pair known acc A B → s ∉ acc → s = derived.
Proof.
  intros HA HB Hsub derived.
  destruct (difference_holds layout A B HA HB Hsub) as [Hholds Hwf].
  split; [exact Hholds|]. split; [exact Hwf|].
  intros known acc s Hs Hnew.
  apply infer_pair_elem in Hs as [Hs | (_ & _ & Heq)]; [contradiction | exact Heq].
Qed.

Lemma subset_inference_sound_witness :
  let derived := Sentence.init (Sentence.cells sentence_abc ∖ Sentence.cells sentence_ab)
                   (Sentence.count sentence_abc - Sentence.count sentence_ab) in
  (holds_of layout_a sentence_ab ∧ holds_of layout_a sentence_abc
   ∧ Sentence.cells sentence_ab ⊆ Sentence.cells sentence_abc)
  ∧ (holds_of layout_a derived
     ∧ well_formed derived
     ∧ ∀ known acc s, s ∈ infer_pair known acc sentence_ab sentence_abc →
                      s ∉ acc → s = derived).
Proof.
  cbv zeta.
  refine ((λ H1 H2 H3,
            conj (conj H1 (conj H2 H3))
                 (subset_inference_sound layout_a sentence_ab sentence_abc H1 H2 H3))
          _ _ _).
  - unfold holds_of. vm_compute. reflexivity.
  - unfold holds_of. vm_compute. reflexivity.
  - apply (bool_decide_unpack _). vm_compute. exact I.
Defined.

(** The same for a whole pass: if every sentence of the knowledge base
    holds of the layout, so does every sentence the pass infers. *)
Lemma infer_all_sound (layout : gset Cell) (known : list Sentence.t) (s : Sentence.t) :
  (∀ k, k ∈ known → holds_of layout k) →
  s ∈ infer_all known →
  holds_of layout s ∧ well_formed s.
Proof.
  intros Hknown Hs.
  apply infer_all_elem in Hs as (s1 & s2 & Hin1 & Hin2 & Hsub & _ & ->).
  apply difference_holds; auto.
Qed.

(** Scenario 4 of the specification: from [{A, B, C} = 1] and
    [{A, B} = 1] a pass infers [{C} = 0]. *)
Example infer_all_scenario_4 :
  infer_all [sentence_abc; sentence_ab] = [Sentence.init {[ (0, 2) ]} 0].
Proof. vm_compute. reflexivity. Qed.

(** ** The loop of the nested function *)

(** *** Collecting the known cells *)

Lemma collect_known_result (sa mi : gset Cell) (s : Sentence.t) :
  collect_known (sa, mi) s =
    Ok (sa ∪ (if decide (Sentence.count s = 0) then Sentence.cells s else ∅),
        mi ∪ (if decide (Z.of_nat (size (Sentence.cells s)) = Sentence.count s)
              then Sentence.cells s else ∅)) s.
Proof.
  unfold collect_known, bind. rewrite known_safes_result, known_mines_result.
  reflexivity.
Qed.

(** The collecting loop leaves every sentence as it was; what it finds is
    bounded by the cells of the sentences with count 0 (safe) and of those
    with as many cells as their count (mines). *)
Lemma for_sentences_collect (Us Um : gset Cell) (l : list Sentence.t) (sa mi : gset Cell) :
  (∀ s, s ∈ l →
     (Sentence.count s = 0 → Sentence.cells s ⊆ Us)
     ∧ (Z.of_nat (size (Sentence.cells s)) = Sentence.count s → Sentence.cells s ⊆ Um)) →
  ∃ sa' mi',
    for_sentences collect_known (sa, mi) l = Ok (sa', mi') l
    ∧ sa' ⊆ sa ∪ Us ∧ mi' ⊆ mi ∪ Um.
Proof.
  revert sa mi. induction l as [|s l IH]; intros sa mi HU.
  - exists sa, mi. simpl. repeat split; apply union_subseteq_l.
  - cbn [for_sentences]. rewrite collect_known_result.
    destruct (HU s (list_elem_of_here _ _)) as [Hsafe Hmine].
    destruct (IH (sa ∪ (if decide (Sentence.count s = 0) then Sentence.cells s else ∅))
                 (mi ∪ (if decide (Z.of_nat (size (Sentence.cells s)) = Sentence.count s)
                        then Sentence.cells s else ∅)))
      as (sa' & mi' & Heq & Hsa & Hmi).
    { intros s' Hs'. apply HU, list_elem_of_further, Hs'. }
    exists sa', mi'. rewrite Heq. split; [reflexivity|]. split.
    + intros c Hc. apply Hsa in Hc. rewrite !elem_of_union in Hc. rewrite elem_of_union.
      destruct Hc as [[Hc|Hc]|Hc]; auto.
      destruct (decide (Sentence.count s = 0)) as [Hz|]; [right; apply (Hsafe Hz), Hc|].
      destruct (not_elem_of_empty _ Hc).
    + intros c Hc. apply Hmi in Hc. rewrite !elem_of_union in Hc. rewrite elem_of_union.
      destruct Hc as [[Hc|Hc]|Hc]; auto.
      destruct (decide (_ = Sentence.count s)) as [Hz|]; [right; apply (Hmine Hz), Hc|].
      destruct (not_elem_of_empty _ Hc).
Qed.

(** In particular the collecting loop never raises. *)
Lemma for_sentences_collect_ok (l : list Sentence.t) (found : gset Cell * gset Cell) :
  ∃ found', for_sentences collect_known found l = Ok found' l.
Proof.
  revert found. induction l as [|s l IH]; intros [sa mi]; [eexists; reflexivity|].
  cbn [for_sentences]. rewrite collect_known_result.
  destruct (IH (sa ∪ (if decide (Sentence.count s = 0) then Sentence.cells s else ∅),
                mi ∪ (if decide (Z.of_nat (size (Sentence.cells s)) = Sentence.count s)
                      then Sentence.cells s else ∅))) as [found' Heq].
  rewrite Heq. eexists; reflexivity.
Qed.

(** *** Marking the cells found *)

Lemma for_each_cons {S A B} (body : B → A → M S B) (acc : B) (x : A) (xs : list A) (s : S) :
  for_each body acc (x :: xs) s =
    match body acc x s with
    | Ok acc' s' => for_each body acc' xs s'
    | Raised e s' => Raised e s'
    end.
Proof. reflexivity. Qed.

Lemma mark_found_safe_step (changed : bool) (x : Cell) (self : t) :
  mark_found_safe changed x self =
    if decide (x ∉ safes self)
    then match mark_safe x self with
         | Ok _ self' => Ok true self'
         | Raised e self' => Raised e self'
         end
    else Ok changed self.
Proof. unfold mark_found_safe, bind, get. destruct (decide _); reflexivity. Qed.

Lemma mark_found_mine_step (changed : bool) (x : Cell) (self : t) :
  mark_found_mine changed x self =
    if decide (x ∉ mines self)
    then match mark_mine x self with
         | Ok _ self' => Ok true self'
         | Raised e self' => Raised e self'
         end
    else Ok changed self.
Proof. unfold mark_found_mine, bind, get. destruct (decide _); reflexivity. Qed.

(** Cells that the engine already has in its set are skipped. *)
Lemma mark_found_safe_skips (changed : bool) (xs : list Cell) (self : t) :
  (∀ x, x ∈ xs → x ∈ safes self) →
  for_each mark_found_safe changed xs self = Ok changed self.
Proof.
  induction xs as [|x xs IH]; intros Hin; [reflexivity|].
  rewrite for_each_cons, mark_found_safe_step.
  destruct (decide (x ∉ safes self)) as [Hx|_].
  - destruct Hx. apply Hin, list_elem_of_here.
  - apply IH. intros y Hy. apply Hin, list_elem_of_further, Hy.
Qed.

Lemma mark_found_mine_skips (changed : bool) (xs : list Cell) (self : t) :
  (∀ x, x ∈ xs → x ∈ mines self) →
  for_each mark_found_mine changed xs self = Ok changed self.
Proof.
  induction xs as [|x xs IH]; intros Hin; [reflexivity|].
  rewrite for_each_cons, mark_found_mine_step.
  destruct (decide (x ∉ mines self)) as [Hx|_].
  - destruct Hx. apply Hin, list_elem_of_here.
  - apply IH. intros y Hy. apply Hin, list_elem_of_further, Hy.
Qed.

(** While the knowledge base holds a sentence, a marking loop either
    skips every cell or ends in an exception: it never sets [changed]. *)
Lemma mark_found_safe_nonempty (changed : bool) (xs : list Cell) (self : t) :
  knowledge self ≠ [] →
  for_each mark_found_safe changed xs self = Ok changed self
  ∨ ∃ e self', for_each mark_found_safe changed xs self = Raised e self'.
Proof.
  intros HK. induction xs as [|x xs IH]; [left; reflexivity|].
  rewrite for_each_cons, mark_found_safe_step.
  destruct (decide (x ∉ safes self)) as [Hx|_]; [|exact IH].
  right. rewrite mark_safe_nonempty by exact HK. eauto.
Qed.

Lemma mark_found_mine_nonempty (changed : bool) (xs : list Cell) (self : t) :
  knowledge self ≠ [] →
  for_each mark_found_mine changed xs self = Ok changed self
  ∨ ∃ e self', for_each mark_found_mine changed xs self = Raised e self'.
Proof.
  intros HK. induction xs as [|x xs IH]; [left; reflexivity|].
  rewrite for_each_cons, mark_found_mine_step.
  destruct (decide (x ∉ mines self)) as [Hx|_]; [|exact IH].
  right. rewrite mark_mine_nonempty by exact HK. eauto.
Qed.

(** *** One pass *)

Lemma bind_Ok {S A B} (m : M S A) (k : A → M S B) (s s' : S) (a : A) :
  m s = Ok a s' → bind m k s = k a s'.
Proof. intros Hm. unfold bind. rewrite Hm. reflexivity. Qed.

Lemma bind_Raised {S A B} (m : M S A) (k : A → M S B) (s s' : S) (e : exn) :
  m s = Raised e s' → bind m k s = Raised e s'.
Proof. intros Hm. unfold bind. rewrite Hm. reflexivity. Qed.

(** When every cell the sentences give away is already in the engine's
    sets, a pass marks nothing and only extends the knowledge base by what
    it infers. *)
Lemma propagation_pass_all_known (set_order : gset Cell → list Cell) (self : t) :
  (∀ X c, c ∈ set_order X → c ∈ X) →
  (∀ s, s ∈ knowledge self →
     (Sentence.count s = 0 → Sentence.cells s ⊆ safes self)
     ∧ (Z.of_nat (size (Sentence.cells s)) = Sentence.count s →
        Sentence.cells s ⊆ mines self)) →
  propagation_pass set_order self =
    match infer_all (knowledge self) with
    | [] => Ok false self
    | _ :: _ =>
        Ok true (set_knowledge (knowledge self ++ infer_all (knowledge self)) self)
    end.
Proof.
  intros Horder Hknown. unfold propagation_pass.
  destruct (for_sentences_collect (safes self) (mines self) (knowledge self) ∅ ∅ Hknown)
    as (sa & mi & Heq & Hsa & Hmi).
  assert (Hcollect : for_sentence_in_knowledge collect_known (∅, ∅) self = Ok (sa, mi) self).
  { unfold for_sentence_in_knowledge. rewrite Heq, set_knowledge_same. reflexivity. }
  rewrite (bind_Ok _ _ _ _ _ Hcollect). cbv beta iota.
  assert (Hsafes : ∀ x, x ∈ set_order sa → x ∈ safes self).
  { intros x Hx. apply Horder, Hsa, elem_of_union in Hx as [Hx|Hx]; [|exact Hx].
    destruct (not_elem_of_empty _ Hx). }
  assert (Hmines : ∀ x, x ∈ set_order mi → x ∈ mines self).
  { intros x Hx. apply Horder, Hmi, elem_of_union in Hx as [Hx|Hx]; [|exact Hx].
    destruct (not_elem_of_empty _ Hx). }
  rewrite (bind_Ok _ _ _ _ _ (mark_found_safe_skips false _ self Hsafes)).
  rewrite (bind_Ok _ _ _ _ _ (mark_found_mine_skips false _ self Hmines)).
  unfold bind, get, modify, ret.
  destruct (infer_all (knowledge self)); reflexivity.
Qed.

(** *** A knowledge base on which the loop never stops *)

Ltac by_compute := apply (bool_decide_unpack _); vm_compute; exact I.

Lemma abcd_minus_a : cells_abcd ∖ {[ (0, 0) ]} = cells_bcd.
Proof. by_compute. Qed.

Lemma abcd_minus_bcd : cells_abcd ∖ cells_bcd = {[ (0, 0) ]}.
Proof. by_compute. Qed.

Lemma size_a : size ({[ (0, 0) ]} : gset Cell) = 1%nat.
Proof. apply size_singleton. Qed.

Lemma size_bcd : size cells_bcd = 3%nat.
Proof. by_compute. Qed.

Lemma size_abcd : size cells_abcd = 4%nat.
Proof. by_compute. Qed.

(** What a sentence of one of the three shapes gives away is already in
    the sets of [disagreeing_engine]. *)
Lemma disagreeing_shape_known (s : Sentence.t) :
  disagreeing_shape s →
  (Sentence.count s = 0 → Sentence.cells s ⊆ {[ (0, 0) ]})
  ∧ (Z.of_nat (size (Sentence.cells s)) = Sentence.count s → Sentence.cells s ⊆ cells_bcd).
Proof.
  intros [[Hc Hn] | [[Hc Hn] | [Hc Hn]]]; rewrite Hc; split; intros Hcount.
  - lia.
  - rewrite size_abcd in Hcount. lia.
  - reflexivity.
  - rewrite size_a in Hcount. rewrite <- Hcount in Hn. discriminate Hn.
  - rewrite Hcount in Hn. discriminate Hn.
  - reflexivity.
Qed.

(** Subset inference maps the three shapes to themselves. *)
Lemma disagreeing_shape_diff (s1 s2 : Sentence.t) :
  disagreeing_shape s1 → disagreeing_shape s2 →
  Sentence.cells s1 ⊆ Sentence.cells s2 →
  Sentence.cells s2 ∖ Sentence.cells s1 ≠ ∅ →
  disagreeing_shape
    (Sentence.init (Sentence.cells s2 ∖ Sentence.cells s1)
       (Sentence.count s2 - Sentence.count s1)).
Proof.
  unfold disagreeing_shape, Sentence.init. cbn [Sentence.cells Sentence.count].
  intros [[Hc1 Hn1] | [[Hc1 Hn1] | [Hc1 Hn1]]] [[Hc2 Hn2] | [[Hc2 Hn2] | [Hc2 Hn2]]];
    rewrite Hc1, Hc2; intros Hsub Hdiff;
    try (exfalso; apply Hdiff; by_compute);
    try (exfalso; revert Hsub; by_compute).
  - (* a single cell out of the whole board *)
    right; right. split; [apply abcd_minus_a|].
    rewrite Z.odd_sub, <- (Z.negb_even (Sentence.count s1)), Hn1.
    destruct Hn2 as [-> | ->]; reflexivity.
  - (* the other three cells out of the whole board *)
    right; left. split; [apply abcd_minus_bcd|].
    rewrite Z.even_sub, <- (Z.negb_odd (Sentence.count s1)), Hn1.
    destruct Hn2 as [-> | ->]; reflexivity.
Qed.

Lemma counts_bounded (l : list Sentence.t) :
  ∃ hi, ∀ s, s ∈ l → Sentence.count s ≤ hi.
Proof.
  induction l as [|s l [hi Hhi]].
  - exists 0. intros s Hs. inversion Hs.
  - exists (Z.max (Sentence.count s) hi). intros s' Hs'.
    apply elem_of_cons in Hs' as [-> | Hs']; [lia|].
    specialize (Hhi s' Hs'). lia.
Qed.

(** A knowledge base that holds the two disagreeing sentences and one
    sentence about the single cell is never closed under subset inference:
    closure would give that sentence every count two apart. *)
Lemma disagreeing_infers (known : list Sentence.t) (n : Z) :
  Sentence.init cells_abcd 1 ∈ known →
  Sentence.init cells_abcd 3 ∈ known →
  Sentence.init {[ (0, 0) ]} n ∈ known →
  infer_all known ≠ [].
Proof.
  intros H1 H3 Hn Hnil.
  pose proof (infer_all_nil known Hnil) as Hclosed.
  assert (Hstep : ∀ m, Sentence.init {[ (0, 0) ]} m ∈ known →
                       Sentence.init {[ (0, 0) ]} (m + 2) ∈ known).
  { intros m Hm.
    pose proof (Hclosed _ _ Hm H1) as Hbcd.
    unfold Sentence.init in Hbcd. cbn [Sentence.cells Sentence.count] in Hbcd.
    rewrite abcd_minus_a in Hbcd.
    assert (Hin : Sentence.mk cells_bcd (1 - m) ∈ known).
    { apply Hbcd.
      - intros Heq. apply (f_equal Sentence.cells) in Heq.
        cbn [Sentence.cells] in Heq. revert Heq. by_compute.
      - by_compute.
      - by_compute. }
    pose proof (Hclosed _ _ Hin H3) as Ha.
    unfold Sentence.init in Ha. cbn [Sentence.cells Sentence.count] in Ha.
    rewrite abcd_minus_bcd in Ha.
    replace (m + 2) with (3 - (1 - m)) by lia.
    apply Ha.
    - intros Heq. apply (f_equal Sentence.cells) in Heq.
      cbn [Sentence.cells] in Heq. revert Heq. by_compute.
    - by_compute.
    - by_compute. }
  assert (Hall : ∀ k : nat, Sentence.init {[ (0, 0) ]} (n + 2 * Z.of_nat k) ∈ known).
  { induction k as [|k IH].
    - replace (n + 2 * Z.of_nat 0) with n by lia. exact Hn.
    - replace (n + 2 * Z.of_nat (S k)) with (n + 2 * Z.of_nat k + 2) by lia.
      apply Hstep, IH. }
  destruct (counts_bounded known) as [hi Hhi].
  pose proof (Hhi _ Hn) as Hlow.
  pose proof (Hhi _ (Hall (Z.to_nat (hi - n + 1)))) as Hhigh.
  unfold Sentence.init in Hlow, Hhigh. cbn [Sentence.count] in Hlow, Hhigh.
  lia.
Qed.

Lemma disagreeing_engine_disagreeing : disagreeing disagreeing_engine.
Proof.
  unfold disagreeing, disagreeing_engine. cbn [safes mines knowledge].
  split; [reflexivity|]. split; [reflexivity|]. split; [|split; [|split]].
  - intros s Hs. rewrite !elem_of_cons, elem_of_nil in Hs.
    destruct Hs as [-> | [-> | [-> | []]]].
    + left. split; [reflexivity | left; reflexivity].
    + left. split; [reflexivity | right; reflexivity].
    + right; left. split; reflexivity.
  - apply list_elem_of_here.
  - apply list_elem_of_further, list_elem_of_here.
  - exists 0. do 2 apply list_elem_of_further. apply list_elem_of_here.
Qed.

(** On such an engine a pass marks nothing, infers at least one new
    sentence, sets [changed] and leaves an engine of the same kind. *)
Lemma disagreeing_pass (set_order : gset Cell → list Cell) (self : t) :
  (∀ X c, c ∈ set_order X → c ∈ X) →
  disagreeing self →
  ∃ self', propagation_pass set_order self = Ok true self' ∧ disagreeing self'.
Proof.
  intros Horder (Hsafes & Hmines & Hshape & H1 & H3 & n & Hn).
  rewrite propagation_pass_all_known; [|exact Horder|].
  - destruct (infer_all (knowledge self)) as [|s new] eqn:Hnew.
    { destruct (disagreeing_infers _ n H1 H3 Hn Hnew). }
    eexists. split; [reflexivity|].
    unfold disagreeing. cbn [set_knowledge safes mines knowledge].
    split; [exact Hsafes|]. split; [exact Hmines|]. split; [|split; [|split]].
    + intros s' Hs'. apply elem_of_app in Hs' as [Hs' | Hs']; [apply Hshape, Hs'|].
      rewrite <- Hnew in Hs'.
      apply infer_all_elem in Hs' as (s1 & s2 & Hin1 & Hin2 & Hsub & Hdiff & ->).
      apply disagreeing_shape_diff; auto.
    + apply elem_of_app. left. exact H1.
    + apply elem_of_app. left. exact H3.
    + exists n. apply elem_of_app. left. exact Hn.
  - intros s Hs. rewrite Hsafes, Hmines. apply disagreeing_shape_known, Hshape, Hs.
Qed.

(** The loop of the nested function does not stop on every engine state:
    on an engine whose sentences disagree, every pass ends with [changed]
    set, whatever the number of passes allowed. *)
Lemma propagate_never_returns (set_order : gset Cell → list Cell) (fuel : nat) (self : t) :
  (∀ X c, c ∈ set_order X → c ∈ X) →
  disagreeing self →
  propagate set_order fuel self = None.
Proof.
  intros Horder. revert self. induction fuel as [|fuel IH]; intros self Hself.
  - reflexivity.
  - cbn [propagate].
    destruct (disagreeing_pass set_order self Horder Hself) as (self' & Hpass & Hself').
    rewrite Hpass. apply IH, Hself'.
Qed.

Lemma propagate_disagreeing_engine (fuel : nat) :
  propagate elements fuel disagreeing_engine = None.
Proof.
  apply propagate_never_returns.
  - intros X c Hc. apply elem_of_elements, Hc.
  - apply disagreeing_engine_disagreeing.
Qed.

(** *** The nested function on an engine without sentences *)

Lemma record_cell_empty (cell : Cell) (count : Z) (self : t) :
  knowledge self = [] →
  ∃ self', record_cell cell count self = Ok tt self'
           ∧ (length (knowledge self') ≤ 1)%nat
           ∧ cell ∈ moves_made self' ∧ cell ∈ safes self'.
Proof.
  intros HK. unfold record_cell.
  unfold bind at 1. unfold modify at 1.
  rewrite (bind_Ok _ _ _ _ _
             (mark_safe_empty cell (set_moves_made (moves_made self ∪ {[cell]}) self) HK)).
  unfold bind, get, modify, ret.
  destruct (decide _); eexists; (split; [reflexivity|]);
    cbn [knowledge set_knowledge set_safes set_moves_made moves_made safes];
    rewrite ?HK; simpl; (split; [lia|]);
    split; apply elem_of_union; right; apply elem_of_singleton; reflexivity.
Qed.

Lemma infer_all_single (s : Sentence.t) : infer_all [s] = [].
Proof.
  unfold infer_all, infer_pair. cbn [foldl]. rewrite sentence_eqb_refl. reflexivity.
Qed.

(** With at most one sentence a pass cannot set [changed]: nothing can be
    inferred from fewer than two sentences, and marking a cell raises as
    soon as there is a sentence. *)
Lemma propagation_pass_short (set_order : gset Cell → list Cell) (self : t) :
  set_order ∅ = [] →
  (length (knowledge self) ≤ 1)%nat →
  propagation_pass set_order self = Ok false self
  ∨ ∃ e self', propagation_pass set_order self = Raised e self'.
Proof.
  intros Hempty Hlen. unfold propagation_pass.
  destruct (knowledge self) as [|s [|s' K]] eqn:HK; cbn [length] in Hlen; [| |lia].
  - left.
    assert (Hcollect : for_sentence_in_knowledge collect_known (∅, ∅) self = Ok (∅, ∅) self).
    { unfold for_sentence_in_knowledge. rewrite HK. cbn [for_sentences].
      rewrite <- HK, set_knowledge_same. reflexivity. }
    rewrite (bind_Ok _ _ _ _ _ Hcollect). cbv beta iota. rewrite Hempty.
    unfold bind, get, ret. cbn [for_each]. unfold ret. rewrite HK. reflexivity.
  - destruct (for_sentences_collect_ok [s] (∅, ∅)) as [[sa mi] Heq].
    assert (Hcollect : for_sentence_in_knowledge collect_known (∅, ∅) self = Ok (sa, mi) self).
    { unfold for_sentence_in_knowledge. rewrite HK, Heq, <- HK, set_knowledge_same.
      reflexivity. }
    rewrite (bind_Ok _ _ _ _ _ Hcollect). cbv beta iota.
    assert (HKne : knowledge self ≠ []) by (rewrite HK; discriminate).
    destruct (mark_found_safe_nonempty false (set_order sa) self HKne)
      as [Hsafe | (e & self' & Hsafe)];
      [|right; rewrite (bind_Raised _ _ _ _ _ Hsafe); eauto].
    rewrite (bind_Ok _ _ _ _ _ Hsafe).
    destruct (mark_found_mine_nonempty false (set_order mi) self HKne)
      as [Hmine | (e & self' & Hmine)];
      [|right; rewrite (bind_Raised _ _ _ _ _ Hmine); eauto].
    rewrite (bind_Ok _ _ _ _ _ Hmine).
    left. unfold bind, get, ret. rewrite HK, infer_all_single. reflexivity.
Qed.

(** Called on an engine without sentences, the nested function stops
    within its first pass, by returning or by raising. *)
Lemma add_knowledge_nested_halts (set_order : gset Cell → list Cell)
    (fuel : nat) (cell : Cell) (count : Z) (self : t) :
  set_order ∅ = [] →
  knowledge self = [] →
  ∃ r, add_knowledge_nested set_order (S fuel) cell count self = Some r.
Proof.
  intros Hempty HK. unfold add_knowledge_nested.
  destruct (record_cell_empty cell count self HK) as (self' & Hrec & Hlen & _).
  rewrite Hrec. cbn [propagate].
  destruct (propagation_pass_short set_order self' Hempty Hlen)
    as [Hpass | (e & self'' & Hpass)]; rewrite Hpass; eauto.
Qed.

(** ** [add_knowledge] *)

(** C2: [add_knowledge] returns [None] and the engine it returns is the
    engine it was called on, field by field. *)
Theorem add_knowledge_no_effect (cell : Cell) (count : Z) (self : t) :
  add_knowledge cell count self = Ok tt self
  ∧ let self' := state_of (add_knowledge cell count self) in
    moves_made self' = moves_made self ∧ safes self' = safes self
    ∧ mines self' = mines self ∧ knowledge self' = knowledge self
    ∧ height self' = height self ∧ width self' = width self.
Proof. repeat split. Qed.

(** C1: on a fresh 8 by 8 engine, [add_knowledge((0,0), 1)] returns with
    the engine as it was: the cell is neither a move made nor safe and no
    sentence has been added, whereas the function defined in its body
    would have recorded all three. *)
Theorem add_knowledge_records_nothing :
  let self := init 8 8 in
  let after := state_of (add_knowledge (0, 0) 1 self) in
  (((0, 0) ∉ moves_made after) ∧ ((0, 0) ∉ safes after) ∧ knowledge after = [])
  ∧ ∃ nested,
      add_knowledge_nested elements 1 (0, 0) 1 self = Some (Ok tt nested)
      ∧ moves_made nested = {[ (0, 0) ]}
      ∧ safes nested = {[ (0, 0) ]}
      ∧ knowledge nested = [Sentence.init {[ (0, 1); (1, 0); (1, 1) ]} 1].
Proof.
  cbv zeta. split.
  - simpl. repeat split; set_solver.
  - eexists. split; [vm_compute; reflexivity|].
    repeat split; vm_compute; reflexivity.
Qed.

(** C6: on a fresh 3 by 3 engine, [add_knowledge((1,1), 0)] returns with no
    cell known to be safe: no propagation pass has run.  The loop of the
    function defined in its body, run on the same input, does not return
    either: its first pass ends in [AttributeError]. *)
Theorem add_knowledge_runs_no_propagation :
  let self := init 3 3 in
  add_knowledge (1, 1) 0 self = Ok tt self
  ∧ safes (state_of (add_knowledge (1, 1) 0 self)) = ∅
  ∧ ∀ fuel, ∃ self',
      add_knowledge_nested elements (S fuel) (1, 1) 0 self =
        Some (Raised (AttributeError "Sentence" "safe") self').
Proof.
  cbv zeta. repeat split.
  intros fuel. eexists. unfold add_knowledge_nested.
  replace (record_cell (1, 1) 0 (init 3 3)) with
    (Ok tt (mk 3 3 {[ (1, 1) ]} ∅ {[ (1, 1) ]}
              [Sentence.init (list_to_set [(0,0);(0,1);(0,2);(1,0);(1,2);(2,0);(2,1);(2,2)]) 0]))
    by (vm_compute; reflexivity).
  cbn [propagate].
  match goal with |- context [propagation_pass elements ?s] =>
    let r := eval vm_compute in (propagation_pass elements s) in
    replace (propagation_pass elements s) with r by (vm_compute; reflexivity)
  end.
  reflexivity.
Qed.

(** ** Sequences of calls from the initial state *)

Lemma elem_of_marked_safe (cell : Cell) (calls : list call) :
  cell ∈ marked_safe calls ↔ MarkSafe cell ∈ calls.
Proof.
  unfold marked_safe. rewrite elem_of_list_to_set, list_elem_of_omap. split.
  - intros (c & Hc & Heq). destruct c; inversion Heq; subst. exact Hc.
  - intros Hc. exists (MarkSafe cell). split; [exact Hc | reflexivity].
Qed.

Lemma elem_of_marked_mine (cell : Cell) (calls : list call) :
  cell ∈ marked_mine calls ↔ MarkMine cell ∈ calls.
Proof.
  unfold marked_mine. rewrite elem_of_list_to_set, list_elem_of_omap. split.
  - intros (c & Hc & Heq). destruct c; inversion Heq; subst. exact Hc.
  - intros Hc. exists (MarkMine cell). split; [exact Hc | reflexivity].
Qed.

(** As long as the knowledge base is empty every call returns, keeps it
    empty, and the two sets grow by exactly the cells marked. *)
Lemma run_empty_knowledge (calls : list call) (self : t) :
  knowledge self = [] →
  run calls self =
    Ok tt (mk (height self) (width self) (moves_made self)
             (mines self ∪ marked_mine calls)
             (safes self ∪ marked_safe calls) []).
Proof.
  revert self. induction calls as [|c calls IH]; intros self HK.
  - unfold run, marked_mine, marked_safe. simpl. unfold ret.
    rewrite !(right_id_L ∅ (∪)). destruct self; simpl in *; subst; reflexivity.
  - unfold run in *. simpl. unfold bind at 1.
    destruct c as [cell|cell|cell count]; simpl do_call.
    + rewrite mark_safe_empty by exact HK. rewrite IH by exact HK. simpl.
      f_equal. f_equal. unfold marked_safe. simpl. rewrite (assoc_L (∪)). reflexivity.
    + rewrite mark_mine_empty by exact HK. rewrite IH by exact HK. simpl.
      f_equal. f_equal. unfold marked_mine. simpl. rewrite (assoc_L (∪)). reflexivity.
    + unfold add_knowledge, ret. rewrite IH by exact HK. reflexivity.
Qed.

(** C7, as stated, fails: marking one cell first as a mine and then as safe
    on a fresh engine returns normally and leaves the cell in both sets. *)
Lemma safes_mines_overlap_reachable :
  ∃ self,
    run [MarkMine (0, 0); MarkSafe (0, 0)] (init 8 8) = Ok tt self
    ∧ (0, 0) ∈ safes self ∧ (0, 0) ∈ mines self
    ∧ safes self ∩ mines self ≠ ∅.
Proof.
  exists (mk 8 8 ∅ {[ (0, 0) ]} {[ (0, 0) ]} []). cbn [safes mines].
  split; [vm_compute; reflexivity|].
  assert (Hin : (0, 0) ∈ ({[ (0, 0) ]} : gset Cell)) by (apply elem_of_singleton; reflexivity).
  split; [exact Hin|]. split; [exact Hin|].
  intros Hempty.
  assert (Hboth : (0, 0) ∈ ({[ (0, 0) ]} : gset Cell) ∩ {[ (0, 0) ]})
    by (apply elem_of_intersection; auto).
  rewrite Hempty in Hboth. exact (not_elem_of_empty _ Hboth).
Qed.

(** C7, amended: from the initial state, a sequence of calls to
    [mark_safe], [mark_mine] and [add_knowledge] that never passes the same
    cell to both [mark_safe] and [mark_mine] runs to its end without an
    exception and leaves no cell in both [safes] and [mines]. *)
Theorem safes_mines_disjoint_from_init (h w : Z) (calls : list call) :
  (∀ cell, ¬ (MarkSafe cell ∈ calls ∧ MarkMine cell ∈ calls)) →
  ∃ self, run calls (init h w) = Ok tt self ∧ safes self ∩ mines self = ∅.
Proof.
  intros Hsep. eexists. split.
  - apply run_empty_knowledge. reflexivity.
  - simpl. rewrite !(left_id_L ∅ (∪)).
    apply leibniz_equiv. apply elem_of_equiv_empty. intros cell Hcell.
    apply elem_of_intersection in Hcell as [Hs Hm].
    apply (Hsep cell). split.
    + apply elem_of_marked_safe. exact Hs.
    + apply elem_of_marked_mine. exact Hm.
Qed.

Lemma safes_mines_disjoint_from_init_witness :
  let calls := [MarkSafe (0, 0); AddKnowledge (0, 0) 1; MarkMine (0, 1)] in
  (∀ cell, ¬ (MarkSafe cell ∈ calls ∧ MarkMine cell ∈ calls))
  ∧ ∃ self, run calls (init 8 8) = Ok tt self ∧ safes self ∩ mines self = ∅.
Proof.
  cbv zeta.
  refine ((λ H, conj H (safes_mines_disjoint_from_init 8 8 _ H)) _).
  intros cell [Hs Hm].
  rewrite !elem_of_cons, elem_of_nil in Hs.
  rewrite !elem_of_cons, elem_of_nil in Hm.
  destruct Hs as [Hs|[Hs|[Hs|[]]]]; try discriminate Hs.
  destruct Hm as [Hm|[Hm|[Hm|[]]]]; try discriminate Hm.
  congruence.
Defined.

(** ** Move selection *)

Section MoveSelection.

Variable set_order : gset Cell → list Cell.
Variable randbelow : nat → nat.

(** Iterating a set visits each member once, in some order. *)
Hypothesis set_order_elements : ∀ X, set_order X ≡ₚ elements X.

(** A draw from [range(n)] is below [n]. *)
Hypothesis randbelow_lt : ∀ n, (0 < n)%nat → (randbelow n < n)%nat.

Lemma elem_of_set_order (cell : Cell) (X : gset Cell) :
  cell ∈ set_order X ↔ cell ∈ X.
Proof. rewrite (set_order_elements X). apply elem_of_elements. Qed.

Lemma NoDup_set_order (X : gset Cell) : NoDup (set_order X).
Proof. rewrite (set_order_elements X). apply NoDup_elements. Qed.

Lemma set_order_empty : set_order ∅ = [].
Proof.
  apply Permutation_nil_r. rewrite (set_order_elements ∅).
  rewrite elements_empty. reflexivity.
Qed.

Lemma elem_of_all_moves (self : t) (cell : Cell) :
  cell ∈ all_moves self ↔ on_grid self cell.
Proof.
  unfold all_moves, on_grid. rewrite elem_of_list_to_set, list_elem_of_bind.
  destruct cell as [i j]. simpl. split.
  - intros (i' & Hj & Hi). apply list_elem_of_fmap in Hj as (j' & Heq & Hj).
    inversion Heq; subst i' j'. apply elem_of_seqZ in Hi, Hj. lia.
  - intros [Hi Hj]. exists i. split.
    + apply list_elem_of_fmap. exists j. split; [reflexivity|].
      apply elem_of_seqZ. lia.
    + apply elem_of_seqZ. lia.
Qed.

Lemma make_safe_move_result (self : t) :
  make_safe_move set_order self =
    Ok (List.find (λ safe, bool_decide (safe ∉ moves_made self))
          (set_order (safes self))) self.
Proof. reflexivity. Qed.

Lemma make_random_move_result (self : t) :
  let candidates := set_order (all_moves self ∖ moves_made self ∖ mines self) in
  make_random_move set_order randbelow self =
    Ok (candidates !! randbelow (length candidates)) self.
Proof.
  cbv zeta. unfold make_random_move, bind, get, ret.
  destruct (decide _) as [Hne|Hempty]; [reflexivity|].
  apply dec_stable in Hempty. rewrite Hempty, set_order_empty. reflexivity.
Qed.

End MoveSelection.

(** C9: [make_safe_move] returns a cell of [safes] that is not in
    [moves_made], and [None] exactly when there is no such cell.
    [make_random_move] chooses from a duplicate-free list of exactly the
    grid cells that are neither in [moves_made] nor in [mines]; the list is
    fixed by the engine before anything is drawn, the move is its entry at
    the drawn index, and every such cell is the move for exactly one value
    of the draw, so a uniform draw gives a uniform choice.  The move is
    [None] exactly when there is no such cell.  Neither method changes the
    engine. *)
Theorem move_selection_spec (set_order : gset Cell → list Cell) (self : t) :
  (∀ X, set_order X ≡ₚ elements X) →
  (∃ r, make_safe_move set_order self = Ok r self
        ∧ (∀ cell, r = Some cell → cell ∈ safes self ∧ cell ∉ moves_made self)
        ∧ (r = None ↔ safes self ∖ moves_made self = ∅))
  ∧ (∃ candidates,
        NoDup candidates
        ∧ (∀ cell, cell ∈ candidates ↔
                   on_grid self cell ∧ (cell ∉ moves_made self) ∧ (cell ∉ mines self))
        ∧ (∀ randbelow,
             make_random_move set_order randbelow self
             = Ok (candidates !! randbelow (length candidates)) self)
        ∧ (∀ cell,
             on_grid self cell ∧ (cell ∉ moves_made self) ∧ (cell ∉ mines self) →
             ∃ k, (k < length candidates)%nat
                  ∧ ∀ randbelow,
                      make_random_move set_order randbelow self = Ok (Some cell) self
                      ↔ randbelow (length candidates) = k)
        ∧ (∀ randbelow,
             (∀ n, (0 < n)%nat → (randbelow n < n)%nat) →
             ∃ r, make_random_move set_order randbelow self = Ok r self
                  ∧ (∀ cell, r = Some cell →
                       on_grid self cell ∧ (cell ∉ moves_made self)
                       ∧ (cell ∉ mines self))
                  ∧ (r = None ↔
                     ∀ cell, ¬ (on_grid self cell ∧ (cell ∉ moves_made self)
                                ∧ (cell ∉ mines self))))).
Proof.
  intros Horder. split.
  - eexists. split; [apply make_safe_move_result|]. split.
    + intros cell Hfind. apply find_some in Hfind as [Hin Htest].
      apply list_elem_of_In, (elem_of_set_order _ Horder) in Hin.
      apply bool_decide_eq_true in Htest. auto.
    + split.
      * intros Hnone. apply leibniz_equiv, elem_of_equiv_empty. intros cell Hcell.
        apply elem_of_difference in Hcell as [Hs Hm].
        assert (Hfalse : bool_decide (cell ∉ moves_made self) = false).
        { apply (find_none _ _ Hnone cell).
          apply list_elem_of_In, (elem_of_set_order _ Horder). exact Hs. }
        apply bool_decide_eq_false in Hfalse. contradiction.
      * intros Hempty.
        destruct (List.find _ _) as [cell|] eqn:Hfind; [|reflexivity].
        apply find_some in Hfind as [Hin Htest].
        apply list_elem_of_In, (elem_of_set_order _ Horder) in Hin.
        apply bool_decide_eq_true in Htest.
        assert (Hcell : cell ∈ safes self ∖ moves_made self)
          by (apply elem_of_difference; auto).
        rewrite Hempty in Hcell. destruct (not_elem_of_empty _ Hcell).
  - (* the list of candidates does not depend on the draw *)
    set (candidates := set_order (all_moves self ∖ moves_made self ∖ mines self)).
    assert (Hres : ∀ randbelow,
              make_random_move set_order randbelow self
              = Ok (candidates !! randbelow (length candidates)) self).
    { intros randbelow. apply (make_random_move_result set_order randbelow Horder self). }
    assert (Hnodup : NoDup candidates) by apply (NoDup_set_order _ Horder).
    assert (Hmem : ∀ cell, cell ∈ candidates ↔
              on_grid self cell ∧ (cell ∉ moves_made self) ∧ (cell ∉ mines self)).
    { intros cell. unfold candidates. rewrite (elem_of_set_order _ Horder).
      rewrite !elem_of_difference, elem_of_all_moves. tauto. }
    exists candidates.
    split; [exact Hnodup|]. split; [exact Hmem|]. split; [exact Hres|]. split.
    + (* one index per candidate *)
      intros cell Hcell. apply Hmem, list_elem_of_lookup_1 in Hcell as [k Hk].
      exists k. split; [eapply lookup_lt_Some; exact Hk|].
      intros randbelow. rewrite Hres. split.
      * intros [= Hlook]. exact (NoDup_lookup _ _ _ _ Hnodup Hlook Hk).
      * intros ->. rewrite Hk. reflexivity.
    + intros randbelow Hdraw.
      exists (candidates !! randbelow (length candidates)).
      split; [apply Hres|]. split.
      * intros cell Hlook. apply Hmem. eapply list_elem_of_lookup_2. exact Hlook.
      * split.
        -- intros Hnone cell Hcell. apply Hmem in Hcell.
           apply lookup_ge_None in Hnone.
           destruct candidates as [|c cs]; [inversion Hcell|].
           specialize (Hdraw (length (c :: cs))). simpl in *. lia.
        -- intros Hnocell. destruct candidates as [|c cs]; [reflexivity|].
           destruct (Hnocell c). apply Hmem. apply list_elem_of_here.
Qed.

Lemma move_selection_spec_witness :
  let order : gset Cell → list Cell := elements in
  (∀ X, order X ≡ₚ elements X)
  ∧ (∃ r, make_safe_move order engine_2x2 = Ok r engine_2x2
          ∧ (∀ cell, r = Some cell →
                     cell ∈ safes engine_2x2 ∧ cell ∉ moves_made engine_2x2)
          ∧ (r = None ↔ safes engine_2x2 ∖ moves_made engine_2x2 = ∅))
  ∧ (∃ candidates,
        NoDup candidates
        ∧ (∀ cell, cell ∈ candidates ↔
                   on_grid engine_2x2 cell ∧ (cell ∉ moves_made engine_2x2)
                   ∧ (cell ∉ mines engine_2x2))
        ∧ (∀ randbelow,
             make_random_move order randbelow engine_2x2
             = Ok (candidates !! randbelow (length candidates)) engine_2x2)
        ∧ (∀ cell,
             on_grid engine_2x2 cell ∧ (cell ∉ moves_made engine_2x2)
             ∧ (cell ∉ mines engine_2x2) →
             ∃ k, (k < length candidates)%nat
                  ∧ ∀ randbelow,
                      make_random_move order randbelow engine_2x2
                      = Ok (Some cell) engine_2x2
                      ↔ randbelow (length candidates) = k)
        ∧ (∀ randbelow,
             (∀ n, (0 < n)%nat → (randbelow n < n)%nat) →
             ∃ r, make_random_move order randbelow engine_2x2 = Ok r engine_2x2
                  ∧ (∀ cell, r = Some cell →
                       on_grid engine_2x2 cell ∧ (cell ∉ moves_made engine_2x2)
                       ∧ (cell ∉ mines engine_2x2))
                  ∧ (r = None ↔
                     ∀ cell, ¬ (on_grid engine_2x2 cell ∧ (cell ∉ moves_made engine_2x2)
                                ∧ (cell ∉ mines engine_2x2))))).
Proof.
  cbv zeta.
  refine ((λ H, conj H (move_selection_spec elements engine_2x2 H)) _).
  intros X. reflexivity.
Defined.

(** On this engine the safe move is [(0,1)]; the two cells that are
    neither played nor known mines are the random move for the draws 0
    and 1. *)
Example make_safe_move_2x2 :
  make_safe_move elements engine_2x2 = Ok (Some (0, 1)) engine_2x2.
Proof. vm_compute. reflexivity. Qed.

Example make_random_move_2x2 :
  make_random_move elements (λ _, 0%nat) engine_2x2 = Ok (Some (0, 1)) engine_2x2.
Proof. vm_compute. reflexivity. Qed.

Example make_random_move_2x2_other :
  make_random_move elements (λ _, 1%nat) engine_2x2 = Ok (Some (1, 0)) engine_2x2.
Proof. vm_compute. reflexivity. Qed.

(** ** The board: indexing *)

Lemma py_position_nonneg (len : nat) (i : Z) :
  0 ≤ i → i < Z.of_nat len → Minesweeper.py_position len i = Some (Z.to_nat i).
Proof.
  intros H0 Hlt. unfold Minesweeper.py_position.
  destruct (decide (0 ≤ i)); [|lia]. destruct (decide (i < Z.of_nat len)); [reflexivity | lia].
Qed.

Lemma py_position_negative (len : nat) (i : Z) :
  - Z.of_nat len ≤ i → i < 0 →
  Minesweeper.py_position len i = Some (Z.to_nat (i + Z.of_nat len)).
Proof.
  intros Hlo Hneg. unfold Minesweeper.py_position.
  destruct (decide (0 ≤ i)); [lia|].
  destruct (decide (- Z.of_nat len ≤ i)); [reflexivity | lia].
Qed.

Lemma py_position_outside (len : nat) (i : Z) :
  i < - Z.of_nat len ∨ Z.of_nat len ≤ i → Minesweeper.py_position len i = None.
Proof.
  intros Hout. unfold Minesweeper.py_position.
  destruct (decide (0 ≤ i)).
  - destruct (decide (i < Z.of_nat len)); [lia | reflexivity].
  - destruct (decide (- Z.of_nat len ≤ i)); [lia | reflexivity].
Qed.

(** A Python index inside [-len, len) denotes position [i mod len]. *)
Lemma py_position_mod (len : nat) (i : Z) :
  - Z.of_nat len ≤ i → i < Z.of_nat len →
  Minesweeper.py_position len i = Some (Z.to_nat (i mod Z.of_nat len)).
Proof.
  intros Hlo Hhi. destruct (decide (0 ≤ i)).
  - rewrite py_position_nonneg by lia. rewrite Z.mod_small by lia. reflexivity.
  - rewrite py_position_negative by lia. f_equal. f_equal.
    rewrite <- (Z.mod_small (i + Z.of_nat len) (Z.of_nat len)) by lia.
    rewrite <- (Z.mul_1_l (Z.of_nat len)) at 1.
    rewrite Z.mod_add by lia. reflexivity.
Qed.

Lemma py_getitem_nonneg {A} (l : list A) (i : Z) :
  0 ≤ i → i < Z.of_nat (length l) → Minesweeper.py_getitem l i = l !! Z.to_nat i.
Proof.
  intros H0 Hlt. unfold Minesweeper.py_getitem. rewrite py_position_nonneg by lia.
  reflexivity.
Qed.

(** The entry of a well-shaped board at an on-grid position, by list
    lookups. *)
Lemma board_at_on_grid (self : Minesweeper.t) (i j : Z) :
  length (Minesweeper.board self) = Z.to_nat (Minesweeper.height self) →
  (∀ row, row ∈ Minesweeper.board self →
     length row = Z.to_nat (Minesweeper.width self)) →
  0 ≤ i ∧ i < Minesweeper.height self →
  0 ≤ j ∧ j < Minesweeper.width self →
  ∃ row, Minesweeper.board self !! Z.to_nat i = Some row
         ∧ Minesweeper.board_at self i j = row !! Z.to_nat j
         ∧ (Z.to_nat j < length row)%nat.
Proof.
  intros Hlen Hrows Hi Hj. unfold Minesweeper.board_at.
  rewrite py_getitem_nonneg by lia.
  destruct (lookup_lt_is_Some_2 (Minesweeper.board self) (Z.to_nat i)) as [row Hrow]; [lia|].
  exists row. rewrite Hrow.
  assert (Hrowlen : length row = Z.to_nat (Minesweeper.width self)).
  { apply Hrows. eapply list_elem_of_lookup_2. exact Hrow. }
  split; [reflexivity|]. split; [apply py_getitem_nonneg; lia | lia].
Qed.

Lemma py_getitem_mod {A} (l : list A) (i : Z) :
  - Z.of_nat (length l) ≤ i → i < Z.of_nat (length l) →
  Minesweeper.py_getitem l i = Minesweeper.py_getitem l (i mod Z.of_nat (length l)).
Proof.
  intros Hlo Hhi. unfold Minesweeper.py_getitem.
  rewrite py_position_mod by lia.
  assert (Hmod : 0 ≤ i mod Z.of_nat (length l) < Z.of_nat (length l))
    by (apply Z.mod_pos_bound; lia).
  rewrite py_position_nonneg by lia. reflexivity.
Qed.

Lemma py_getitem_outside {A} (l : list A) (i : Z) :
  i < - Z.of_nat (length l) ∨ Z.of_nat (length l) ≤ i →
  Minesweeper.py_getitem l i = None.
Proof.
  intros Hout. unfold Minesweeper.py_getitem. rewrite py_position_outside by exact Hout.
  reflexivity.
Qed.

Lemma py_getitem_elem_of {A} (l : list A) (i : Z) (x : A) :
  Minesweeper.py_getitem l i = Some x → x ∈ l.
Proof.
  unfold Minesweeper.py_getitem. destruct (Minesweeper.py_position _ _); [|discriminate].
  apply list_elem_of_lookup_2.
Qed.

(** ** [is_mine] *)

(** X1: on a consistent board, [is_mine((i, j))] answers for the cell at
    row [i mod height] and column [j mod width] whenever [i] lies in
    [-height, height) and [j] in [-width, width): for an on-grid cell it
    tells whether the cell is a mine, and a negative coordinate is counted
    from the far edge.  Outside these ranges it raises [IndexError]. *)
Theorem is_mine_spec (self : Minesweeper.t) (i j : Z) :
  board_consistent self →
  Minesweeper.is_mine self (i, j) =
    if decide ((- Minesweeper.height self ≤ i ∧ i < Minesweeper.height self)
               ∧ (- Minesweeper.width self ≤ j ∧ j < Minesweeper.width self))
    then inr (bool_decide ((i mod Minesweeper.height self, j mod Minesweeper.width self)
                           ∈ Minesweeper.mines self))
    else inl Minesweeper.IndexError.
Proof.
  intros (Hlen & Hrows & Hgrid & Hcells). unfold Minesweeper.is_mine.
  destruct (decide _) as [[Hi Hj] | Hout].
  - assert (Hh : Z.of_nat (length (Minesweeper.board self)) = Minesweeper.height self) by lia.
    assert (Hmi : 0 ≤ i mod Minesweeper.height self < Minesweeper.height self)
      by (apply Z.mod_pos_bound; lia).
    assert (Hmj : 0 ≤ j mod Minesweeper.width self < Minesweeper.width self)
      by (apply Z.mod_pos_bound; lia).
    pose proof (Hcells _ _ (conj (proj1 Hmi) (proj2 Hmi)) (conj (proj1 Hmj) (proj2 Hmj)))
      as Hcell.
    assert (Hsame : Minesweeper.board_at self i j
                    = Minesweeper.board_at self (i mod Minesweeper.height self)
                        (j mod Minesweeper.width self)).
    { unfold Minesweeper.board_at in *.
      rewrite (py_getitem_mod (Minesweeper.board self) i) by lia. rewrite Hh.
      destruct (Minesweeper.py_getitem (Minesweeper.board self) _) as [row|] eqn:Hrow;
        [|reflexivity].
      assert (Hw : Z.of_nat (length row) = Minesweeper.width self).
      { rewrite (Hrows row) by (eapply py_getitem_elem_of; exact Hrow). lia. }
      rewrite (py_getitem_mod row j) by lia. now rewrite Hw. }
    rewrite Hsame, Hcell. reflexivity.
  - unfold Minesweeper.board_at.
    destruct (Minesweeper.py_getitem (Minesweeper.board self) i) as [row|] eqn:Hrow;
      [|reflexivity].
    assert (Hi : - Minesweeper.height self ≤ i ∧ i < Minesweeper.height self).
    { destruct (decide (- Minesweeper.height self ≤ i ∧ i < Minesweeper.height self))
        as [Hi|Hi]; [exact Hi|].
      rewrite py_getitem_outside in Hrow by lia. discriminate Hrow. }
    rewrite py_getitem_outside; [reflexivity|].
    rewrite (Hrows row) by (eapply py_getitem_elem_of; exact Hrow). lia.
Qed.

(** ** Building the board *)

Lemma place_mines_unfold (requested : Z) (draws : list Cell) (self : Minesweeper.t) :
  Minesweeper.place_mines requested draws self =
    if decide (Z.of_nat (size (Minesweeper.mines self)) = requested) then Some (inr self)
    else if decide (Minesweeper.height self ≤ 0) then Some (inl Minesweeper.ValueError)
    else if decide (Minesweeper.width self ≤ 0) then Some (inl Minesweeper.ValueError)
    else
      match draws with
      | [] => None
      | (i, j) :: rest =>
          match Minesweeper.board_at self i j with
          | None => Some (inl Minesweeper.IndexError)
          | Some true => Minesweeper.place_mines requested rest self
          | Some false =>
              match Minesweeper.board_set self i j with
              | None => Some (inl Minesweeper.IndexError)
              | Some board' =>
                  Minesweeper.place_mines requested rest
                    (Minesweeper.mk (Minesweeper.height self) (Minesweeper.width self)
                       (Minesweeper.mines self ∪ {[ (i, j) ]}) board'
                       (Minesweeper.mines_found self))
              end
          end
      end.
Proof. destruct draws; reflexivity. Qed.

Lemma empty_field_consistent (height width : Z) :
  board_consistent (Minesweeper.empty_field height width).
Proof.
  unfold board_consistent, Minesweeper.empty_field.
  cbn [Minesweeper.board Minesweeper.height Minesweeper.width Minesweeper.mines].
  split; [apply length_replicate|]. split; [|split].
  - intros row Hrow. apply elem_of_replicate in Hrow as [-> _]. apply length_replicate.
  - intros c Hc. destruct (not_elem_of_empty _ Hc).
  - intros i j Hi Hj. unfold Minesweeper.board_at. cbn [Minesweeper.board].
    rewrite (py_getitem_nonneg (replicate (Z.to_nat height) _) i)
      by (rewrite ?length_replicate; lia).
    rewrite lookup_replicate_2 by lia.
    rewrite (py_getitem_nonneg (replicate (Z.to_nat width) false) j)
      by (rewrite ?length_replicate; lia).
    rewrite lookup_replicate_2 by lia.
    rewrite bool_decide_eq_false_2 by apply not_elem_of_empty. reflexivity.
Qed.

(** Writing [True] at an on-grid position that holds [False] succeeds and
    keeps the board consistent with the enlarged set of mines. *)
Lemma board_set_consistent (self : Minesweeper.t) (i j : Z) :
  board_consistent self →
  0 ≤ i ∧ i < Minesweeper.height self →
  0 ≤ j ∧ j < Minesweeper.width self →
  ∃ board',
    Minesweeper.board_set self i j = Some board'
    ∧ board_consistent
        (Minesweeper.mk (Minesweeper.height self) (Minesweeper.width self)
           (Minesweeper.mines self ∪ {[ (i, j) ]}) board'
           (Minesweeper.mines_found self)).
Proof.
  intros (Hlen & Hrows & Hgrid & Hcells) Hi Hj.
  destruct (board_at_on_grid self i j Hlen Hrows Hi Hj) as (row & Hrow & _ & Hjlt).
  exists (<[Z.to_nat i := <[Z.to_nat j := true]> row]> (Minesweeper.board self)).
  split.
  { unfold Minesweeper.board_set, Minesweeper.py_setitem.
    rewrite py_getitem_nonneg, Hrow by lia.
    rewrite py_position_nonneg by lia. rewrite py_position_nonneg by lia. reflexivity. }
  set (self' := Minesweeper.mk _ _ _ _ _).
  assert (Hlen' : length (Minesweeper.board self') = Z.to_nat (Minesweeper.height self')).
  { unfold self'. cbn [Minesweeper.board Minesweeper.height]. rewrite length_insert. exact Hlen. }
  assert (Hrows' : ∀ r, r ∈ Minesweeper.board self' →
                        length r = Z.to_nat (Minesweeper.width self')).
  { unfold self'. cbn [Minesweeper.board Minesweeper.width]. intros r Hr.
    apply list_elem_of_lookup in Hr as [k Hk].
    apply list_lookup_insert_Some in Hk as [(_ & <- & _) | (_ & Hk)].
    - rewrite length_insert. apply Hrows. eapply list_elem_of_lookup_2. exact Hrow.
    - apply Hrows. eapply list_elem_of_lookup_2. exact Hk. }
  split; [exact Hlen'|]. split; [exact Hrows'|]. split.
  - unfold self'. cbn [Minesweeper.mines Minesweeper.height Minesweeper.width].
    intros c Hc. apply elem_of_union in Hc as [Hc | Hc]; [apply Hgrid, Hc|].
    apply elem_of_singleton in Hc. subst c. simpl. auto.
  - intros i' j' Hi' Hj'.
    destruct (board_at_on_grid self' i' j' Hlen' Hrows' Hi' Hj') as (row' & Hrow' & -> & _).
    unfold self' in Hrow', Hi', Hj' |- *.
    cbn [Minesweeper.board Minesweeper.mines Minesweeper.height Minesweeper.width] in *.
    destruct (board_at_on_grid self i' j' Hlen Hrows Hi' Hj') as (row0 & Hrow0 & Hat0 & _).
    specialize (Hcells i' j' Hi' Hj'). rewrite Hat0 in Hcells.
    apply list_lookup_insert_Some in Hrow' as [(Heqi & <- & _) | (Hnei & Hrow')].
    + rewrite <- Heqi, Hrow in Hrow0. injection Hrow0 as <-.
      assert (i' = i) by lia. subst i'.
      destruct (decide (j' = j)) as [-> | Hnej].
      * rewrite list_lookup_insert_eq by exact Hjlt.
        rewrite bool_decide_eq_true_2; [reflexivity|].
        apply elem_of_union. right. apply elem_of_singleton. reflexivity.
      * rewrite list_lookup_insert_ne by lia. rewrite Hcells. f_equal.
        apply bool_decide_ext. rewrite elem_of_union, elem_of_singleton.
        split; [auto | intros [H | H]; [exact H | congruence]].
    + rewrite Hrow0 in Hrow'. injection Hrow' as <-. rewrite Hcells. f_equal.
      apply bool_decide_ext. rewrite elem_of_union, elem_of_singleton.
      split; [auto | intros [H | H]; [exact H|]].
      injection H as -> ->. lia.
Qed.

(** One iteration of the loop on a consistent board with an in-range
    draw: a cell that is already a mine is skipped, any other cell becomes
    a mine. *)
Lemma place_mines_step (requested : Z) (i j : Z) (rest : list Cell)
    (self : Minesweeper.t) :
  board_consistent self →
  Z.of_nat (size (Minesweeper.mines self)) ≠ requested →
  0 ≤ i ∧ i < Minesweeper.height self →
  0 ≤ j ∧ j < Minesweeper.width self →
  ∃ self',
    Minesweeper.place_mines requested ((i, j) :: rest) self
    = Minesweeper.place_mines requested rest self'
    ∧ board_consistent self'
    ∧ Minesweeper.height self' = Minesweeper.height self
    ∧ Minesweeper.width self' = Minesweeper.width self
    ∧ Minesweeper.mines_found self' = Minesweeper.mines_found self
    ∧ Minesweeper.mines self' = Minesweeper.mines self ∪ {[ (i, j) ]}.
Proof.
  intros Hcons Hsize Hi Hj. rewrite place_mines_unfold.
  destruct (decide (_ = requested)) as [Heq|_]; [contradiction|].
  destruct (decide (Minesweeper.height self ≤ 0)); [lia|].
  destruct (decide (Minesweeper.width self ≤ 0)); [lia|].
  pose proof Hcons as (_ & _ & _ & Hcells). rewrite (Hcells i j Hi Hj).
  destruct (bool_decide _) eqn:Hmine.
  - apply bool_decide_eq_true in Hmine. exists self.
    split; [reflexivity|]. split; [exact Hcons|]. repeat (split; [reflexivity|]).
    apply leibniz_equiv. intros c. rewrite elem_of_union, elem_of_singleton.
    split; [auto | intros [H | ->]; assumption].
  - destruct (board_set_consistent self i j Hcons Hi Hj) as (board' & Hset & Hcons').
    rewrite Hset. eexists. split; [reflexivity|]. split; [exact Hcons'|].
    repeat split.
Qed.

(** Whatever the loop returns is a consistent board with exactly the
    requested number of mines, all of them among the cells drawn. *)
Lemma place_mines_consistent (requested : Z) (draws : list Cell)
    (self r : Minesweeper.t) :
  board_consistent self →
  draws_in_range (Minesweeper.height self) (Minesweeper.width self) draws →
  Minesweeper.place_mines requested draws self = Some (inr r) →
  board_consistent r
  ∧ Z.of_nat (size (Minesweeper.mines r)) = requested
  ∧ Minesweeper.height r = Minesweeper.height self
  ∧ Minesweeper.width r = Minesweeper.width self
  ∧ Minesweeper.mines_found r = Minesweeper.mines_found self
  ∧ Minesweeper.mines self ⊆ Minesweeper.mines r
  ∧ Minesweeper.mines r ⊆ Minesweeper.mines self ∪ list_to_set draws.
Proof.
  revert self. induction draws as [|[i j] rest IH]; intros self Hcons Hrange Hres.
  - rewrite place_mines_unfold in Hres.
    destruct (decide (_ = requested)) as [Heq|_].
    + injection Hres as <-. repeat (split; [assumption || reflexivity|]).
      apply union_subseteq_l.
    + destruct (decide (_ ≤ 0)); [discriminate|]. destruct (decide (_ ≤ 0)); discriminate.
  - destruct (decide (Z.of_nat (size (Minesweeper.mines self)) = requested)) as [Heq|Hne].
    + rewrite place_mines_unfold in Hres. destruct (decide (_ = requested)); [|contradiction].
      injection Hres as <-. repeat (split; [assumption || reflexivity|]).
      apply union_subseteq_l.
    + destruct (Hrange (i, j) (list_elem_of_here _ _)) as [Hi Hj]. simpl in Hi, Hj.
      destruct (place_mines_step requested i j rest self Hcons Hne Hi Hj)
        as (self' & Hstep & Hcons' & Hh & Hw & Hf & Hm).
      pose proof (eq_trans (eq_sym Hstep) Hres) as Hres'.
      destruct (IH self' Hcons') as (Hr1 & Hr2 & Hr3 & Hr4 & Hr5 & Hr6 & Hr7);
        [|exact Hres'|].
      { rewrite Hh, Hw. intros c Hc. apply Hrange, list_elem_of_further, Hc. }
      split; [exact Hr1|]. split; [exact Hr2|]. split; [congruence|].
      split; [congruence|]. split; [congruence|]. split.
      * intros c Hc. apply Hr6. rewrite Hm. apply elem_of_union. left. exact Hc.
      * intros c Hc. apply Hr7 in Hc. rewrite Hm in Hc.
        rewrite list_to_set_cons. rewrite !elem_of_union in *. tauto.
Qed.

(** With enough different cells among the draws the loop returns. *)
Lemma place_mines_completes (requested : Z) (draws : list Cell) (self : Minesweeper.t) :
  board_consistent self →
  draws_in_range (Minesweeper.height self) (Minesweeper.width self) draws →
  Z.of_nat (size (Minesweeper.mines self)) ≤ requested →
  requested ≤ Z.of_nat (size (Minesweeper.mines self ∪ list_to_set draws)) →
  ∃ r, Minesweeper.place_mines requested draws self = Some (inr r).
Proof.
  revert self. induction draws as [|[i j] rest IH]; intros self Hcons Hrange Hlo Hhi.
  - rewrite list_to_set_nil, (right_id_L ∅ (∪)) in Hhi.
    rewrite place_mines_unfold. destruct (decide (_ = requested)); [eauto | lia].
  - destruct (decide (Z.of_nat (size (Minesweeper.mines self)) = requested)) as [Heq|Hne].
    { rewrite place_mines_unfold. destruct (decide (_ = requested)); [eauto | contradiction]. }
    destruct (Hrange (i, j) (list_elem_of_here _ _)) as [Hi Hj]. simpl in Hi, Hj.
    destruct (place_mines_step requested i j rest self Hcons Hne Hi Hj)
      as (self' & Hstep & Hcons' & Hh & Hw & Hf & Hm).
    cut (∃ r, Minesweeper.place_mines requested rest self' = Some (inr r)).
    { intros [r Hr]. exists r. exact (eq_trans Hstep Hr). }
    apply IH.
    + exact Hcons'.
    + rewrite Hh, Hw. intros c Hc. apply Hrange, list_elem_of_further, Hc.
    + rewrite Hm. pose proof (size_union_alt (Minesweeper.mines self) ({[ (i, j) ]} : gset Cell)) as Hsz.
      assert (Hle : (size (({[ (i, j) ]} : gset Cell) ∖ Minesweeper.mines self) ≤ 1)%nat).
      { rewrite <- (size_singleton (C := gset Cell) (i, j)).
        apply subseteq_size. intros c Hc. apply elem_of_difference in Hc as [Hc _]. exact Hc. }
      lia.
    + rewrite Hm. rewrite list_to_set_cons in Hhi.
      rewrite <- (assoc_L (∪)). exact Hhi.
Qed.

Lemma size_list_to_set_le (l : list Cell) :
  (size (list_to_set l : gset Cell) ≤ length l)%nat.
Proof.
  induction l as [|c l IH]; [rewrite list_to_set_nil, size_empty; lia|].
  rewrite list_to_set_cons, size_union_alt, size_singleton. cbn [length].
  assert ((size ((list_to_set l : gset Cell) ∖ {[c]}) ≤ size (list_to_set l : gset Cell))%nat).
  { apply subseteq_size. intros x Hx. apply elem_of_difference in Hx as [Hx _]. exact Hx. }
  lia.
Qed.

Lemma grid_length (rows : list Z) (columns : list Z) :
  length (rows ≫= λ i, (λ j, (i, j)) <$> columns) = (length rows * length columns)%nat.
Proof.
  induction rows as [|i rows IH]; [reflexivity|].
  rewrite bind_cons, length_app, length_fmap, IH. reflexivity.
Qed.

(** A set of on-grid cells has at most [height * width] members. *)
Lemma size_on_grid (X : gset Cell) (height width : Z) :
  0 ≤ height → 0 ≤ width →
  (∀ c, c ∈ X → (0 ≤ c.1 ∧ c.1 < height) ∧ (0 ≤ c.2 ∧ c.2 < width)) →
  Z.of_nat (size X) ≤ height * width.
Proof.
  intros Hh Hw Hgrid.
  set (grid := seqZ 0 height ≫= λ i, (λ j, (i, j)) <$> seqZ 0 width).
  assert (Hsub : X ⊆ list_to_set grid).
  { intros [i j] Hc. apply elem_of_list_to_set, list_elem_of_bind.
    destruct (Hgrid _ Hc) as [Hi Hj]. simpl in Hi, Hj.
    exists i. split; [|apply elem_of_seqZ; lia].
    apply list_elem_of_fmap. exists j. split; [reflexivity | apply elem_of_seqZ; lia]. }
  apply subseteq_size in Hsub.
  pose proof (size_list_to_set_le grid) as Hle.
  assert (Hlen : @length Cell grid = (Z.to_nat height * Z.to_nat width)%nat).
  { unfold grid. etransitivity; [apply grid_length|]. rewrite !length_seqZ. reflexivity. }
  assert (Hmul : Z.of_nat (Z.to_nat height * Z.to_nat width) = height * width).
  { rewrite Nat2Z.inj_mul. lia. }
  assert (Hbound : (size X ≤ Z.to_nat height * Z.to_nat width)%nat).
  { etransitivity; [exact Hsub|]. etransitivity; [exact Hle|].
    apply Nat.eq_le_incl, Hlen. }
  lia.
Qed.

(** The loop cannot stop when the requested number of mines is negative
    or exceeds the number of cells. *)
Lemma place_mines_never (requested : Z) (draws : list Cell) (self : Minesweeper.t) :
  board_consistent self →
  0 < Minesweeper.height self → 0 < Minesweeper.width self →
  draws_in_range (Minesweeper.height self) (Minesweeper.width self) draws →
  requested < 0 ∨ Minesweeper.height self * Minesweeper.width self < requested →
  Minesweeper.place_mines requested draws self = None.
Proof.
  revert self. induction draws as [|[i j] rest IH]; intros self Hcons Hh Hw Hrange Hreq.
  - rewrite place_mines_unfold.
    assert (Hsize : Z.of_nat (size (Minesweeper.mines self)) ≠ requested).
    { pose proof Hcons as (_ & _ & Hgrid & _).
      pose proof (size_on_grid _ _ _ (Z.lt_le_incl _ _ Hh) (Z.lt_le_incl _ _ Hw) Hgrid). lia. }
    destruct (decide (_ = requested)); [contradiction|].
    destruct (decide (_ ≤ 0)); [lia|]. destruct (decide (_ ≤ 0)); [lia | reflexivity].
  - assert (Hsize : Z.of_nat (size (Minesweeper.mines self)) ≠ requested).
    { pose proof Hcons as (_ & _ & Hgrid & _).
      pose proof (size_on_grid _ _ _ (Z.lt_le_incl _ _ Hh) (Z.lt_le_incl _ _ Hw) Hgrid). lia. }
    destruct (Hrange (i, j) (list_elem_of_here _ _)) as [Hi Hj]. simpl in Hi, Hj.
    destruct (place_mines_step requested i j rest self Hcons Hsize Hi Hj)
      as (self' & Hstep & Hcons' & Hh' & Hw' & _ & _).
    refine (eq_trans Hstep _). apply IH.
    + exact Hcons'.
    + lia.
    + lia.
    + rewrite Hh', Hw'. intros c Hc. apply Hrange, list_elem_of_further, Hc.
    + rewrite Hh', Hw'. exact Hreq.
Qed.

(** ** [nearby_mines] *)

(** The cells of a rectangle of rows and columns, row by row. *)
Lemma NoDup_grid (rows columns : list Z) :
  NoDup rows → NoDup columns →
  NoDup (rows ≫= λ i, (λ j, (i, j)) <$> columns).
Proof.
  intros Hrows Hcolumns. apply NoDup_bind; [| |exact Hrows].
  - intros i1 i2 c _ _ H1 H2.
    apply list_elem_of_fmap in H1 as (j1 & -> & _).
    apply list_elem_of_fmap in H2 as (j2 & Heq & _). congruence.
  - intros i _. apply NoDup_fmap_2; [|exact Hcolumns].
    intros j1 j2 Heq. congruence.
Qed.

Lemma elem_of_grid (rows columns : list Z) (c : Cell) :
  c ∈ (rows ≫= λ i, (λ j, (i, j)) <$> columns) ↔ c.1 ∈ rows ∧ c.2 ∈ columns.
Proof.
  rewrite list_elem_of_bind. destruct c as [i j]. simpl. split.
  - intros (i' & Hj & Hi). apply list_elem_of_fmap in Hj as (j' & Heq & Hj).
    injection Heq as -> ->. auto.
  - intros [Hi Hj]. exists i. split; [|exact Hi].
    apply list_elem_of_fmap. exists j. auto.
Qed.

(** On a consistent board one step of the inner loop adds one exactly for
    a mine other than the cell asked about. *)
Lemma nearby_step_consistent (self : Minesweeper.t) (cell : Cell) (count i j : Z) :
  board_consistent self →
  Minesweeper.nearby_step self cell (inr count) i j =
    inr (count + if decide ((i, j) ≠ cell ∧ (i, j) ∈ Minesweeper.mines self)
                 then 1 else 0).
Proof.
  intros (_ & _ & Hgrid & Hcells). unfold Minesweeper.nearby_step.
  destruct (decide ((i, j) = cell)) as [Heq|Hne].
  { destruct (decide (_ ∧ _)) as [[Hne _]|_]; [contradiction | f_equal; lia]. }
  destruct (decide ((0 ≤ i ∧ i < _) ∧ (0 ≤ j ∧ j < _))) as [[Hi Hj]|Hout].
  - rewrite (Hcells i j Hi Hj).
    destruct (decide (_ ∧ _)) as [[_ Hin]|Hnot].
    + rewrite bool_decide_eq_true_2 by exact Hin. reflexivity.
    + rewrite bool_decide_eq_false_2 by (intros Hin; apply Hnot; auto). f_equal. lia.
  - destruct (decide (_ ∧ _)) as [[_ Hin]|_]; [|f_equal; lia].
    destruct Hout. apply (Hgrid _ Hin).
Qed.

Lemma nearby_row_consistent (self : Minesweeper.t) (cell : Cell) (count i : Z)
    (columns : list Z) :
  board_consistent self →
  foldl (λ count j, Minesweeper.nearby_step self cell count i j) (inr count) columns =
    inr (count + Z.of_nat (length (filter
           (λ c, c ≠ cell ∧ c ∈ Minesweeper.mines self)
           ((λ j, (i, j)) <$> columns)))).
Proof.
  intros Hcons. revert count. induction columns as [|j columns IH]; intros count.
  - simpl. f_equal. lia.
  - cbn [foldl]. rewrite nearby_step_consistent by exact Hcons. rewrite IH.
    rewrite fmap_cons.
    destruct (decide ((i, j) ≠ cell ∧ (i, j) ∈ Minesweeper.mines self)) as [Hyes|Hno].
    + rewrite filter_cons_True by exact Hyes. cbn [length]. f_equal.
      rewrite Nat2Z.inj_succ, <- Z.add_1_l, Z.add_assoc. reflexivity.
    + rewrite filter_cons_False by exact Hno. f_equal.
      rewrite Z.add_0_r. reflexivity.
Qed.

Lemma nearby_rows_consistent (self : Minesweeper.t) (cell : Cell) (count : Z)
    (rows columns : list Z) :
  board_consistent self →
  foldl (λ count i,
     foldl (λ count j, Minesweeper.nearby_step self cell count i j) count columns)
    (inr count) rows =
    inr (count + Z.of_nat (length (filter
           (λ c, c ≠ cell ∧ c ∈ Minesweeper.mines self)
           (rows ≫= λ i, (λ j, (i, j)) <$> columns)))).
Proof.
  intros Hcons. revert count. induction rows as [|i rows IH]; intros count.
  - simpl. f_equal. lia.
  - cbn [foldl]. rewrite nearby_row_consistent by exact Hcons. rewrite IH.
    rewrite bind_cons, filter_app, length_app. f_equal.
    rewrite Nat2Z.inj_add, Z.add_assoc. reflexivity.
Qed.

(** [nearby_mines] on a consistent board: the number of mines among the
    cells around [cell]. *)
Lemma nearby_mines_consistent (self : Minesweeper.t) (cell : Cell) :
  board_consistent self →
  Minesweeper.nearby_mines self cell =
    inr (Z.of_nat (size (filter (adjacent cell) (Minesweeper.mines self)))).
Proof.
  intros Hcons. unfold Minesweeper.nearby_mines.
  rewrite nearby_rows_consistent by exact Hcons. f_equal. rewrite Z.add_0_l. f_equal.
  set (around := seqZ (cell.1 - 1) 3 ≫= λ i, (λ j, (i, j)) <$> seqZ (cell.2 - 1) 3).
  rewrite <- (size_list_to_set (C := gset Cell)).
  - f_equal. apply leibniz_equiv. intros c.
    rewrite elem_of_list_to_set, list_elem_of_filter, elem_of_filter.
    unfold around. rewrite elem_of_grid, !elem_of_seqZ. unfold adjacent.
    split.
    + intros [[Hne Hin] [Hi Hj]]. split; [|exact Hin]. split; [exact Hne|]. lia.
    + intros [[Hne [Hi Hj]] Hin]. split; [auto | lia].
  - apply NoDup_filter, NoDup_grid; apply NoDup_seqZ.
Qed.

(** Fewer than nine cells are adjacent to a cell. *)
Lemma size_adjacent (cell : Cell) (X : gset Cell) :
  (size (filter (adjacent cell) X) ≤ 8)%nat.
Proof.
  set (around := seqZ (cell.1 - 1) 3 ≫= λ i, (λ j, (i, j)) <$> seqZ (cell.2 - 1) 3).
  assert (Hsub : filter (adjacent cell) X ⊆ list_to_set (filter (λ c, c ≠ cell) around)).
  { intros c Hc. apply elem_of_filter in Hc as [(Hne & Hi & Hj) _].
    apply elem_of_list_to_set, list_elem_of_filter. split; [exact Hne|].
    unfold around. apply elem_of_grid. rewrite !elem_of_seqZ. lia. }
  apply subseteq_size in Hsub.
  pose proof (size_list_to_set_le (filter (λ c, c ≠ cell) around)) as Hle.
  assert (Hlt : (length (filter (λ c, c ≠ cell) around) < length around)%nat).
  { apply (length_filter_lt _ _ cell); [|intros Hne; apply Hne; reflexivity].
    unfold around. apply elem_of_grid. rewrite !elem_of_seqZ. lia. }
  assert (Hlen : @length Cell around = 9%nat).
  { unfold around. etransitivity; [apply grid_length|]. rewrite !length_seqZ. reflexivity. }
  assert (Hbound : (size (filter (adjacent cell) X) < 9)%nat).
  { eapply Nat.le_lt_trans; [exact Hsub|]. eapply Nat.le_lt_trans; [exact Hle|].
    eapply Nat.lt_le_trans; [exact Hlt|]. apply Nat.eq_le_incl, Hlen. }
  lia.
Qed.

(** ** The neighbours the nested function collects *)

Lemma neighbors_row_elem (self : t) (i j di : Z) (djs : list Z)
    (acc : gset Cell) (c : Cell) :
  c ∈ foldl (λ neighbors dj,
        if bool_decide (di = 0) && bool_decide (dj = 0) then neighbors
        else
          let ni := i + di in
          let nj := j + dj in
          if decide ((0 ≤ ni ∧ ni < height self) ∧ (0 ≤ nj ∧ nj < width self)) then
            let neighbor := (ni, nj) in
            if decide ((neighbor ∉ safes self) ∧ (neighbor ∉ mines self))
            then neighbors ∪ {[neighbor]}
            else neighbors
          else neighbors)
        acc djs
  ↔ c ∈ acc
    ∨ ∃ dj, dj ∈ djs ∧ ¬ (di = 0 ∧ dj = 0) ∧ c = (i + di, j + dj)
            ∧ on_grid self c ∧ (c ∉ safes self) ∧ (c ∉ mines self).
Proof.
  revert acc. induction djs as [|dj djs IH]; intros acc.
  - simpl. split; [auto | intros [H | (dj & Hdj & _)]; [exact H | inversion Hdj]].
  - cbn [foldl]. rewrite IH. clear IH.
    assert (Hhere : ∀ P : Z → Prop, (∃ d, d ∈ dj :: djs ∧ P d) ↔ P dj ∨ ∃ d, d ∈ djs ∧ P d).
    { intros P. split.
      - intros (d & Hd & HP). apply elem_of_cons in Hd as [-> | Hd]; eauto.
      - intros [HP | (d & Hd & HP)];
          [exists dj; split; [apply list_elem_of_here | exact HP]
          |exists d; split; [apply list_elem_of_further, Hd | exact HP]]. }
    rewrite (Hhere (λ d, ¬ (di = 0 ∧ d = 0) ∧ c = (i + di, j + d)
                         ∧ on_grid self c ∧ (c ∉ safes self) ∧ (c ∉ mines self))).
    destruct (bool_decide (di = 0) && bool_decide (dj = 0)) eqn:Hzero.
    { apply andb_true_iff in Hzero as [H1 H2].
      apply bool_decide_eq_true in H1, H2. tauto. }
    assert (Hnz : ¬ (di = 0 ∧ dj = 0)).
    { intros [H1 H2]. apply andb_false_iff in Hzero as [Hz | Hz];
        apply bool_decide_eq_false in Hz; contradiction. }
    cbv zeta. unfold on_grid.
    destruct (decide ((0 ≤ i + di ∧ i + di < height self)
                      ∧ (0 ≤ j + dj ∧ j + dj < width self))) as [Hgrid|Hgrid].
    + destruct (decide (((i + di, j + dj) ∉ safes self)
                        ∧ ((i + di, j + dj) ∉ mines self))) as [[Hs Hm]|Hknown].
      * rewrite elem_of_union, elem_of_singleton. split.
        -- intros [[H | ->] | H]; auto. right; left. simpl. auto.
        -- intros [H | [(_ & -> & _) | H]]; auto.
      * split; [intros [H | H]; auto|].
        intros [H | [(_ & -> & _ & Hs & Hm) | H]]; auto. tauto.
    + split; [intros [H | H]; auto|].
      intros [H | [(_ & -> & Hg & _) | H]]; auto. simpl in Hg. tauto.
Qed.

Lemma neighbors_rows_elem (self : t) (i j : Z) (dis djs : list Z)
    (acc : gset Cell) (c : Cell) :
  c ∈ foldl (λ neighbors di,
        foldl (λ neighbors dj,
          if bool_decide (di = 0) && bool_decide (dj = 0) then neighbors
          else
            let ni := i + di in
            let nj := j + dj in
            if decide ((0 ≤ ni ∧ ni < height self) ∧ (0 ≤ nj ∧ nj < width self)) then
              let neighbor := (ni, nj) in
              if decide ((neighbor ∉ safes self) ∧ (neighbor ∉ mines self))
              then neighbors ∪ {[neighbor]}
              else neighbors
            else neighbors)
          neighbors djs)
        acc dis
  ↔ c ∈ acc
    ∨ ∃ di dj, di ∈ dis ∧ dj ∈ djs ∧ ¬ (di = 0 ∧ dj = 0) ∧ c = (i + di, j + dj)
               ∧ on_grid self c ∧ (c ∉ safes self) ∧ (c ∉ mines self).
Proof.
  revert acc. induction dis as [|di dis IH]; intros acc.
  - simpl. split; [auto | intros [H | (di & dj & Hdi & _)]; [exact H | inversion Hdi]].
  - cbn [foldl]. rewrite IH, neighbors_row_elem. clear IH. split.
    + intros [[H | (dj & Hdj & Hrest)] | (di' & dj & Hdi & Hrest)]; auto.
      * right. exists di, dj. split; [apply list_elem_of_here | auto].
      * right. exists di', dj. split; [apply list_elem_of_further, Hdi | auto].
    + intros [H | (di' & dj & Hdi & Hdj & Hrest)]; auto.
      apply elem_of_cons in Hdi as [-> | Hdi].
      * left; right. exists dj. auto.
      * right. exists di', dj. auto.
Qed.

(** The cells the nested function collects are the cells around [cell]
    that are on the grid and in neither of the engine's sets. *)
Lemma elem_of_neighbors_of (self : t) (cell c : Cell) :
  c ∈ neighbors_of cell self
  ↔ adjacent cell c ∧ on_grid self c ∧ (c ∉ safes self) ∧ (c ∉ mines self).
Proof.
  destruct cell as [i j]. unfold neighbors_of. rewrite neighbors_rows_elem.
  unfold adjacent. cbn [fst snd]. split.
  - intros [H | (di & dj & Hdi & Hdj & Hnz & -> & Hrest)];
      [destruct (not_elem_of_empty _ H)|].
    split; [|exact Hrest]. cbn [fst snd].
    rewrite !elem_of_cons, elem_of_nil in Hdi, Hdj.
    split; [intros [= H1 H2]; apply Hnz; lia | lia].
  - intros ((Hne & Hi & Hj) & Hrest). right.
    exists (c.1 - i), (c.2 - j).
    split; [rewrite !elem_of_cons; lia|]. split; [rewrite !elem_of_cons; lia|].
    split.
    + intros [H1 H2]. apply Hne. destruct c as [ci cj]. simpl in *. f_equal; lia.
    + split; [|exact Hrest]. destruct c as [ci cj]. simpl. f_equal; lia.
Qed.

(** Marking [cell] itself safe, or recording it as a move, does not change
    its neighbours. *)
Lemma neighbors_of_marked (self : t) (cell : Cell) (moves : gset Cell)
    (known : list Sentence.t) :
  neighbors_of cell
    (mk (height self) (width self) moves (mines self) (safes self ∪ {[cell]}) known)
  = neighbors_of cell self.
Proof.
  apply leibniz_equiv. intros c. rewrite !elem_of_neighbors_of.
  unfold on_grid. cbn [height width safes mines].
  rewrite elem_of_union, elem_of_singleton. unfold adjacent. tauto.
Qed.

(** Steps 1 to 4 on an engine without sentences. *)
Lemma record_cell_result (cell : Cell) (count : Z) (self : t) :
  knowledge self = [] →
  record_cell cell count self =
    Ok tt (mk (height self) (width self) (moves_made self ∪ {[cell]}) (mines self)
             (safes self ∪ {[cell]})
             (if decide (neighbors_of cell self ≠ ∅)
              then [Sentence.init (neighbors_of cell self) count] else [])).
Proof.
  intros HK. unfold record_cell.
  unfold bind at 1. unfold modify at 1.
  rewrite (bind_Ok _ _ _ _ _
             (mark_safe_empty cell (set_moves_made (moves_made self ∪ {[cell]}) self) HK)).
  unfold bind, get, modify, ret, set_safes, set_moves_made, set_knowledge.
  cbn [height width moves_made mines safes knowledge].
  rewrite HK, neighbors_of_marked.
  destruct (decide (neighbors_of cell self ≠ ∅)); reflexivity.
Qed.

(** ** The sentence built from the board's answer *)

(** The mines among the collected neighbours are among the mines around
    the cell; they are all of them when the engine's safe cells are not
    mines and no mine around the cell is in the engine's mine set. *)
Lemma neighbors_mines_subseteq (self : t) (cell : Cell) (layout : gset Cell) :
  neighbors_of cell self ∩ layout ⊆ filter (adjacent cell) layout.
Proof.
  intros c Hc. apply elem_of_intersection in Hc as [Hn Hl].
  apply elem_of_neighbors_of in Hn as [Hadj _]. apply elem_of_filter. auto.
Qed.

Lemma neighbors_mines_all (self : t) (cell : Cell) (layout : gset Cell) :
  (∀ c, c ∈ layout → on_grid self c) →
  safes self ∩ layout = ∅ →
  (∀ c, c ∈ mines self → ¬ adjacent cell c) →
  neighbors_of cell self ∩ layout = filter (adjacent cell) layout.
Proof.
  intros Hgrid Hsafe Hmines. apply leibniz_equiv. intros c. split.
  - apply neighbors_mines_subseteq.
  - intros Hc. apply elem_of_filter in Hc as [Hadj Hl].
    apply elem_of_intersection. split; [|exact Hl].
    apply elem_of_neighbors_of. split; [exact Hadj|]. split; [apply Hgrid, Hl|]. split.
    + intros Hs. assert (Hboth : c ∈ safes self ∩ layout) by (apply elem_of_intersection; auto).
      rewrite Hsafe in Hboth. exact (not_elem_of_empty _ Hboth).
    + intros Hm. exact (Hmines c Hm Hadj).
Qed.

(** ** What a pass infers is new *)

Lemma infer_pair_fresh (known acc : list Sentence.t) (s1 s2 : Sentence.t) :
  (∀ s, s ∈ acc → s ∉ known) → NoDup acc →
  (∀ s, s ∈ infer_pair known acc s1 s2 → s ∉ known)
  ∧ NoDup (infer_pair known acc s1 s2).
Proof.
  intros Hfresh Hnodup. unfold infer_pair.
  destruct (Sentence.eqb s1 s2); [auto|].
  destruct (decide (Sentence.cells s1 ⊆ Sentence.cells s2)) as [Hsub|Hsub]; [|auto].
  destruct (decide (Sentence.cells s2 ∖ Sentence.cells s1 ≠ ∅)) as [Hne|Hne]; [|auto].
  destruct (sentence_in _ known) eqn:Hknown; [auto|].
  destruct (sentence_in _ acc) eqn:Hacc; [auto|].
  cbn [negb andb].
  assert (Hk : Sentence.init (Sentence.cells s2 ∖ Sentence.cells s1)
                 (Sentence.count s2 - Sentence.count s1) ∉ known).
  { intros Hin. apply sentence_in_elem_of in Hin. congruence. }
  assert (Ha : Sentence.init (Sentence.cells s2 ∖ Sentence.cells s1)
                 (Sentence.count s2 - Sentence.count s1) ∉ acc).
  { intros Hin. apply sentence_in_elem_of in Hin. congruence. }
  split.
  - intros x Hx. apply elem_of_app in Hx as [Hx | Hx]; [apply Hfresh, Hx|].
    apply list_elem_of_singleton in Hx. subst x. exact Hk.
  - apply NoDup_app. split; [exact Hnodup|]. split; [|apply NoDup_singleton].
    intros x Hx Hx'. apply list_elem_of_singleton in Hx'. subst x. contradiction.
Qed.

Lemma infer_row_fresh (known l acc : list Sentence.t) (s1 : Sentence.t) :
  (∀ s, s ∈ acc → s ∉ known) → NoDup acc →
  (∀ s, s ∈ foldl (λ new_inferences s2, infer_pair known new_inferences s1 s2) acc l →
        s ∉ known)
  ∧ NoDup (foldl (λ new_inferences s2, infer_pair known new_inferences s1 s2) acc l).
Proof.
  revert acc. induction l as [|s2 l IH]; intros acc Hfresh Hnodup; [auto|].
  cbn [foldl]. destruct (infer_pair_fresh known acc s1 s2 Hfresh Hnodup) as [Hf Hn].
  apply IH; assumption.
Qed.

Lemma infer_rows_fresh (known l acc : list Sentence.t) :
  (∀ s, s ∈ acc → s ∉ known) → NoDup acc →
  (∀ s, s ∈ foldl (λ new_inferences s1,
               foldl (λ new_inferences s2, infer_pair known new_inferences s1 s2)
                 new_inferences known) acc l →
        s ∉ known)
  ∧ NoDup (foldl (λ new_inferences s1,
             foldl (λ new_inferences s2, infer_pair known new_inferences s1 s2)
               new_inferences known) acc l).
Proof.
  revert acc. induction l as [|s1 l IH]; intros acc Hfresh Hnodup; [auto|].
  cbn [foldl]. destruct (infer_row_fresh known known acc s1 Hfresh Hnodup) as [Hf Hn].
  apply IH; assumption.
Qed.

Lemma infer_all_fresh (known : list Sentence.t) :
  (∀ s, s ∈ infer_all known → s ∉ known) ∧ NoDup (infer_all known).
Proof.
  apply infer_rows_fresh; [intros s Hs; inversion Hs | apply NoDup_nil_2].
Qed.

(** ** The nested function only adds to the engine *)

Lemma grows_refl (self : t) : grows self self.
Proof. unfold grows. repeat split; reflexivity. Qed.

Lemma grows_trans (s1 s2 s3 : t) : grows s1 s2 → grows s2 s3 → grows s1 s3.
Proof.
  unfold grows. intros (H1 & H2 & H3 & H4 & H5 & H6) (G1 & G2 & G3 & G4 & G5 & G6).
  split; [congruence|]. split; [congruence|].
  split; [etransitivity; eassumption|]. split; [etransitivity; eassumption|].
  split; etransitivity; eassumption.
Qed.

Lemma only_adds_ret {A} (a : A) : only_adds (ret a).
Proof. intros self. apply grows_refl. Qed.

Lemma only_adds_get : only_adds get.
Proof. intros self. apply grows_refl. Qed.

Lemma only_adds_bind {A B} (m : M t A) (k : A → M t B) :
  only_adds m → (∀ a, only_adds (k a)) → only_adds (bind m k).
Proof.
  intros Hm Hk self. unfold bind. specialize (Hm self).
  destruct (m self) as [a self'|e self']; simpl in Hm; [|exact Hm].
  eapply grows_trans; [exact Hm | apply Hk].
Qed.

Lemma only_adds_for_each {A B} (body : B → A → M t B) (acc : B) (xs : list A) :
  (∀ acc x, only_adds (body acc x)) → only_adds (for_each body acc xs).
Proof.
  intros Hbody. revert acc. induction xs as [|x xs IH]; intros acc.
  - apply only_adds_ret.
  - cbn [for_each]. apply only_adds_bind; [apply Hbody | intros a; apply IH].
Qed.

Lemma only_adds_mark_safe (cell : Cell) : only_adds (mark_safe cell).
Proof.
  intros self. destruct (mark_safe_state cell self) as [-> _].
  unfold grows, set_safes. cbn [height width moves_made safes mines knowledge].
  repeat split; try reflexivity. apply union_subseteq_l.
Qed.

Lemma only_adds_mark_mine (cell : Cell) : only_adds (mark_mine cell).
Proof.
  intros self. destruct (mark_mine_state cell self) as [-> _].
  unfold grows, set_mines. cbn [height width moves_made safes mines knowledge].
  repeat split; try reflexivity. apply union_subseteq_l.
Qed.

Lemma only_adds_collect (found : gset Cell * gset Cell) :
  only_adds (for_sentence_in_knowledge collect_known found).
Proof.
  intros self. unfold for_sentence_in_knowledge.
  destruct (for_sentences_collect_ok (knowledge self) found) as [found' ->].
  simpl. rewrite set_knowledge_same. apply grows_refl.
Qed.

Lemma only_adds_get_bind {B} (k : t → M t B) :
  (∀ self, grows self (state_of (k self self))) → only_adds (bind get k).
Proof. intros Hk self. apply Hk. Qed.

Lemma only_adds_propagation_pass (set_order : gset Cell → list Cell) :
  only_adds (propagation_pass set_order).
Proof.
  unfold propagation_pass.
  apply only_adds_bind; [apply only_adds_collect|]. intros [sa mi].
  apply only_adds_bind.
  { apply only_adds_for_each. intros changed x. unfold mark_found_safe.
    apply only_adds_bind; [apply only_adds_get|]. intros self.
    destruct (decide _); [|apply only_adds_ret].
    apply only_adds_bind; [apply only_adds_mark_safe | intros; apply only_adds_ret]. }
  intros changed. apply only_adds_bind.
  { apply only_adds_for_each. intros changed' x. unfold mark_found_mine.
    apply only_adds_bind; [apply only_adds_get|]. intros self.
    destruct (decide _); [|apply only_adds_ret].
    apply only_adds_bind; [apply only_adds_mark_mine | intros; apply only_adds_ret]. }
  intros changed'. apply only_adds_get_bind. intros self.
  destruct (infer_all (knowledge self)) as [|s new] eqn:Hnew; [apply grows_refl|].
  unfold bind, modify, ret, set_knowledge, grows.
  cbn [state_of height width moves_made safes mines knowledge].
  repeat split; try reflexivity. apply prefix_app_r. reflexivity.
Qed.

Lemma propagate_grows (set_order : gset Cell → list Cell) (fuel : nat) (self : t)
    (r : result t unit) :
  propagate set_order fuel self = Some r → grows self (state_of r).
Proof.
  revert self. induction fuel as [|fuel IH]; intros self Hr; [discriminate|].
  cbn [propagate] in Hr.
  pose proof (only_adds_propagation_pass set_order self) as Hpass.
  destruct (propagation_pass set_order self) as [[|] self'|e self']; simpl in Hpass.
  - eapply grows_trans; [exact Hpass | apply IH, Hr].
  - injection Hr as <-. exact Hpass.
  - injection Hr as <-. exact Hpass.
Qed.

Lemma only_adds_record_cell (cell : Cell) (count : Z) : only_adds (record_cell cell count).
Proof.
  unfold record_cell. apply only_adds_bind.
  { intros self. unfold modify, set_moves_made, grows.
    cbn [state_of height width moves_made safes mines knowledge].
    repeat split; try reflexivity. apply union_subseteq_l. }
  intros _. apply only_adds_bind; [apply only_adds_mark_safe|]. intros _.
  apply only_adds_get_bind. intros self.
  destruct (decide _); [|apply grows_refl].
  unfold modify, set_knowledge, grows.
  cbn [state_of height width moves_made safes mines knowledge].
  repeat split; try reflexivity. apply prefix_app_r. reflexivity.
Qed.

(** ** The nested function on an engine without sentences, in full *)

Lemma set_order_head (set_order : gset Cell → list Cell) (X : gset Cell) :
  (∀ X, set_order X ≡ₚ elements X) →
  X ≠ ∅ → ∃ x xs, set_order X = x :: xs ∧ x ∈ X.
Proof.
  intros Horder Hne. destruct (set_order X) as [|x xs] eqn:Hlist.
  - destruct Hne. apply leibniz_equiv, elements_empty_iff.
    symmetry. apply (proj1 (Permutation_nil_l _)). rewrite <- Hlist. apply Horder.
  - exists x, xs. split; [reflexivity|].
    apply (elem_of_set_order set_order Horder). rewrite Hlist. apply list_elem_of_here.
Qed.

(** What the first pass finds in the one sentence just recorded. *)
Lemma collect_single (s : Sentence.t) (self : t) :
  knowledge self = [s] →
  for_sentence_in_knowledge collect_known (∅, ∅) self =
    Ok (if decide (Sentence.count s = 0) then Sentence.cells s else ∅,
        if decide (Z.of_nat (size (Sentence.cells s)) = Sentence.count s)
        then Sentence.cells s else ∅) self.
Proof.
  intros HK. unfold for_sentence_in_knowledge. rewrite HK. cbn [for_sentences].
  rewrite collect_known_result, !(left_id_L ∅ (∪)), <- HK, set_knowledge_same.
  reflexivity.
Qed.

(** X18: called on an engine without sentences, the nested function
    records the cell as a move and as safe and adds one sentence over the
    unknown neighbours, if there are any.  It then raises
    [AttributeError]: from [mark_mine] when the count equals the number of
    those neighbours, from [mark_safe] when the count is 0; in every other
    case it returns after one pass with nothing else changed. *)
Theorem nested_first_observation (set_order : gset Cell → list Cell) (fuel : nat)
    (cell : Cell) (count : Z) (self : t) :
  (∀ X, set_order X ≡ₚ elements X) →
  knowledge self = [] →
  let neighbors := neighbors_of cell self in
  let recorded :=
    mk (height self) (width self) (moves_made self ∪ {[cell]}) (mines self)
       (safes self ∪ {[cell]})
       (if decide (neighbors ≠ ∅) then [Sentence.init neighbors count] else []) in
  if decide (neighbors ≠ ∅ ∧ count = Z.of_nat (size neighbors)) then
    ∃ x, x ∈ neighbors
         ∧ add_knowledge_nested set_order (S fuel) cell count self =
             Some (Raised (AttributeError "Sentence" "mines")
                     (set_mines (mines recorded ∪ {[x]}) recorded))
  else if decide (neighbors ≠ ∅ ∧ count = 0) then
    ∃ x, x ∈ neighbors
         ∧ add_knowledge_nested set_order (S fuel) cell count self =
             Some (Raised (AttributeError "Sentence" "safe")
                     (set_safes (safes recorded ∪ {[x]}) recorded))
  else
    add_knowledge_nested set_order (S fuel) cell count self = Some (Ok tt recorded).
Proof.
  intros Horder HK neighbors recorded.
  assert (Hempty : set_order ∅ = []) by (apply set_order_empty, Horder).
  assert (Hsub : ∀ X c, c ∈ set_order X → c ∈ X).
  { intros X c Hc. apply (elem_of_set_order set_order Horder), Hc. }
  unfold add_knowledge_nested. rewrite record_cell_result by exact HK.
  fold neighbors. fold recorded. cbn [propagate].
  destruct (decide (neighbors ≠ ∅)) as [Hne|Hnone].
  - (* one sentence has been recorded *)
    assert (HK1 : knowledge recorded = [Sentence.init neighbors count]).
    { unfold recorded. cbn [knowledge].
      destruct (decide (neighbors ≠ ∅)); [reflexivity|contradiction]. }
    assert (HKne : knowledge recorded ≠ []) by (rewrite HK1; discriminate).
    assert (Hsize : size neighbors ≠ 0%nat).
    { intros Hz. apply Hne. apply leibniz_equiv, size_empty_inv, Hz. }
    unfold propagation_pass. rewrite (bind_Ok _ _ _ _ _ (collect_single _ _ HK1)).
    unfold Sentence.init. cbn [Sentence.cells Sentence.count]. cbv beta iota.
    destruct (decide (neighbors ≠ ∅ ∧ count = Z.of_nat (size neighbors)))
      as [[_ Hall]|Hnot].
    + (* every neighbour is a mine *)
      destruct (decide (count = 0)) as [Hz|_]; [lia|].
      destruct (decide (Z.of_nat (size neighbors) = count)) as [_|Hc]; [|lia].
      rewrite Hempty. cbn [for_each]. rewrite (bind_Ok _ _ _ _ _ eq_refl).
      destruct (set_order_head set_order neighbors Horder Hne) as (x & xs & Hlist & Hx).
      exists x. split; [exact Hx|]. rewrite Hlist, (bind_Raised _ _ recorded
        (set_mines (mines recorded ∪ {[x]}) recorded) (AttributeError "Sentence" "mines")).
      * reflexivity.
      * rewrite for_each_cons, mark_found_mine_step.
        destruct (decide (x ∉ mines recorded)) as [_|Hin].
        -- rewrite mark_mine_nonempty by exact HKne. reflexivity.
        -- destruct Hin. apply elem_of_neighbors_of in Hx as (_ & _ & _ & Hm). exact Hm.
    + destruct (decide (Z.of_nat (size neighbors) = count)) as [Hc|_];
        [destruct Hnot; auto|].
      destruct (decide (neighbors ≠ ∅ ∧ count = 0)) as [[_ Hz]|Hnz].
      * (* no neighbour is a mine *)
        destruct (decide (count = 0)) as [_|Hc]; [|contradiction].
        destruct (set_order_head set_order neighbors Horder Hne) as (x & xs & Hlist & Hx).
        exists x. split; [exact Hx|]. rewrite Hlist, (bind_Raised _ _ recorded
          (set_safes (safes recorded ∪ {[x]}) recorded) (AttributeError "Sentence" "safe")).
        -- reflexivity.
        -- rewrite for_each_cons, mark_found_safe_step.
           destruct (decide (x ∉ safes recorded)) as [_|Hin].
           ++ rewrite mark_safe_nonempty by exact HKne. reflexivity.
           ++ destruct Hin. apply elem_of_neighbors_of in Hx as ((Hcell & _) & _ & Hs & _).
              unfold recorded. cbn [safes]. rewrite elem_of_union, elem_of_singleton. tauto.
      * (* the sentence gives nothing away *)
        destruct (decide (count = 0)) as [Hz|_]; [destruct Hnz; auto|].
        rewrite Hempty. cbn [for_each]. rewrite !(bind_Ok _ _ _ _ _ eq_refl).
        unfold bind, get, ret. rewrite HK1.
        change (infer_all [Sentence.mk neighbors count])
          with (infer_all [Sentence.init neighbors count]).
        rewrite infer_all_single. reflexivity.
  - (* no unknown neighbour: nothing recorded, nothing to do *)
    destruct (decide (neighbors ≠ ∅ ∧ _)) as [[Hne _]|_]; [contradiction|].
    destruct (decide (neighbors ≠ ∅ ∧ _)) as [[Hne _]|_]; [contradiction|].
    assert (HK0 : knowledge recorded = []).
    { unfold recorded. cbn [knowledge].
      destruct (decide (neighbors ≠ ∅)); [contradiction|reflexivity]. }
    rewrite propagation_pass_all_known; [|exact Hsub|].
    + rewrite HK0. reflexivity.
    + rewrite HK0. intros s Hs. inversion Hs.
Qed.

(** ** The board, for its users *)

Lemma draws_3x3_in_range : draws_in_range 3 3 draws_3x3.
Proof.
  intros c Hc. unfold draws_3x3 in Hc. rewrite !elem_of_cons, elem_of_nil in Hc.
  destruct Hc as [-> | [-> | [-> | []]]]; simpl; lia.
Qed.

Lemma init_3x3 : Minesweeper.init 3 3 2 draws_3x3 = Some (inr board_3x3).
Proof. vm_compute. reflexivity. Qed.

Lemma board_3x3_consistent : board_consistent board_3x3.
Proof.
  apply (place_mines_consistent 2 draws_3x3 (Minesweeper.empty_field 3 3)).
  - apply empty_field_consistent.
  - exact draws_3x3_in_range.
  - exact init_3x3.
Qed.

Lemma is_mine_spec_witness :
  board_consistent board_3x3
  ∧ Minesweeper.is_mine board_3x3 (-1, 2) =
      if decide ((- Minesweeper.height board_3x3 ≤ -1 ∧ -1 < Minesweeper.height board_3x3)
                 ∧ (- Minesweeper.width board_3x3 ≤ 2 ∧ 2 < Minesweeper.width board_3x3))
      then inr (bool_decide (((-1) mod Minesweeper.height board_3x3,
                              2 mod Minesweeper.width board_3x3)
                             ∈ Minesweeper.mines board_3x3))
      else inl Minesweeper.IndexError.
Proof.
  refine ((λ H, conj H (is_mine_spec board_3x3 (-1) 2 H)) _).
  exact board_3x3_consistent.
Defined.

(** X2: when the constructor returns, with draws inside the board, the
    board is [height] by [width], its true entries are exactly the cells
    of [mines], there are exactly as many mines as requested, each one was
    drawn, no mine is found yet, and the game counts as won only if no
    mine was requested. *)
Theorem init_consistent (height width requested : Z) (draws : list Cell)
    (self : Minesweeper.t) :
  draws_in_range height width draws →
  Minesweeper.init height width requested draws = Some (inr self) →
  board_consistent self
  ∧ Z.of_nat (size (Minesweeper.mines self)) = requested
  ∧ Minesweeper.height self = height
  ∧ Minesweeper.width self = width
  ∧ Minesweeper.mines_found self = ∅
  ∧ Minesweeper.mines self ⊆ list_to_set draws
  ∧ (Minesweeper.won self = true ↔ requested = 0).
Proof.
  intros Hrange Hinit. unfold Minesweeper.init in Hinit.
  destruct (place_mines_consistent requested draws (Minesweeper.empty_field height width)
              self (empty_field_consistent height width) Hrange Hinit)
    as (Hcons & Hsize & Hh & Hw & Hfound & _ & Hdrawn).
  cbn [Minesweeper.empty_field Minesweeper.height Minesweeper.width
       Minesweeper.mines Minesweeper.mines_found] in Hh, Hw, Hfound, Hdrawn.
  rewrite (left_id_L ∅ (∪)) in Hdrawn.
  repeat (split; [assumption|]).
  unfold Minesweeper.won. rewrite bool_decide_eq_true, Hfound. split.
  - intros Heq. rewrite <- Heq, size_empty in Hsize. lia.
  - intros Hzero. symmetry. apply leibniz_equiv, size_empty_inv. lia.
Qed.

Lemma init_consistent_witness :
  (draws_in_range 3 3 draws_3x3
   ∧ Minesweeper.init 3 3 2 draws_3x3 = Some (inr board_3x3))
  ∧ (board_consistent board_3x3
     ∧ Z.of_nat (size (Minesweeper.mines board_3x3)) = 2
     ∧ Minesweeper.height board_3x3 = 3
     ∧ Minesweeper.width board_3x3 = 3
     ∧ Minesweeper.mines_found board_3x3 = ∅
     ∧ Minesweeper.mines board_3x3 ⊆ list_to_set draws_3x3
     ∧ (Minesweeper.won board_3x3 = true ↔ 2 = 0)).
Proof.
  refine ((λ H1 H2, conj (conj H1 H2) (init_consistent 3 3 2 draws_3x3 board_3x3 H1 H2)) _ _).
  - exact draws_3x3_in_range.
  - exact init_3x3.
Defined.

(** X3: the constructor returns as soon as the draws, all inside the
    board, hit as many different cells as mines are requested. *)
Theorem init_returns (height width requested : Z) (draws : list Cell) :
  draws_in_range height width draws →
  0 ≤ requested →
  requested ≤ Z.of_nat (size (list_to_set draws : gset Cell)) →
  ∃ self, Minesweeper.init height width requested draws = Some (inr self).
Proof.
  intros Hrange Hlo Hhi. unfold Minesweeper.init.
  apply place_mines_completes.
  - apply empty_field_consistent.
  - exact Hrange.
  - cbn [Minesweeper.empty_field Minesweeper.mines]. rewrite size_empty. lia.
  - cbn [Minesweeper.empty_field Minesweeper.mines]. rewrite (left_id_L ∅ (∪)). exact Hhi.
Qed.

Lemma init_returns_witness :
  (draws_in_range 3 3 draws_3x3 ∧ 0 ≤ 2
   ∧ 2 ≤ Z.of_nat (size (list_to_set draws_3x3 : gset Cell)))
  ∧ ∃ self, Minesweeper.init 3 3 2 draws_3x3 = Some (inr self).
Proof.
  refine ((λ H1 H2 H3, conj (conj H1 (conj H2 H3)) (init_returns 3 3 2 draws_3x3 H1 H2 H3))
            _ _ _).
  - exact draws_3x3_in_range.
  - lia.
  - vm_compute. discriminate.
Defined.

(** X4: on a board with at least one cell, the constructor never returns
    when the requested number of mines is negative or larger than the
    number of cells: whatever is drawn, the loop is still running when the
    draws are used up. *)
Theorem init_never_returns (height width requested : Z) (draws : list Cell) :
  0 < height → 0 < width →
  draws_in_range height width draws →
  requested < 0 ∨ height * width < requested →
  Minesweeper.init height width requested draws = None.
Proof.
  intros Hh Hw Hrange Hreq. unfold Minesweeper.init.
  apply place_mines_never; try assumption. apply empty_field_consistent.
Qed.

Lemma init_never_returns_witness :
  (0 < 3 ∧ 0 < 3 ∧ draws_in_range 3 3 draws_3x3 ∧ (10 < 0 ∨ 3 * 3 < 10))
  ∧ Minesweeper.init 3 3 10 draws_3x3 = None.
Proof.
  refine ((λ H1 H2 H3 H4, conj (conj H1 (conj H2 (conj H3 H4)))
                               (init_never_returns 3 3 10 draws_3x3 H1 H2 H3 H4)) _ _ _ _).
  - lia.
  - lia.
  - exact draws_3x3_in_range.
  - right. lia.
Defined.

(** X5: with a height or a width that is not positive, the constructor
    raises [ValueError] from [random.randrange] unless no mine is
    requested. *)
Theorem init_empty_range (height width requested : Z) (draws : list Cell) :
  requested ≠ 0 →
  height ≤ 0 ∨ width ≤ 0 →
  Minesweeper.init height width requested draws = Some (inl Minesweeper.ValueError).
Proof.
  intros Hreq Hdim. unfold Minesweeper.init. rewrite place_mines_unfold.
  cbn [Minesweeper.empty_field Minesweeper.mines Minesweeper.height Minesweeper.width].
  rewrite size_empty.
  destruct (decide (Z.of_nat 0 = requested)) as [Hz|_]; [lia|].
  destruct (decide (height ≤ 0)); [reflexivity|].
  destruct (decide (width ≤ 0)); [reflexivity | lia].
Qed.

Lemma init_empty_range_witness :
  (1 ≠ 0 ∧ (3 ≤ 0 ∨ 0 ≤ 0))
  ∧ Minesweeper.init 3 0 1 draws_3x3 = Some (inl Minesweeper.ValueError).
Proof.
  refine ((λ H1 H2, conj (conj H1 H2) (init_empty_range 3 0 1 draws_3x3 H1 H2)) _ _).
  - lia.
  - right. lia.
Defined.

(** X6: on a consistent board [nearby_mines] never raises, for any cell,
    on or off the grid: it returns the number of mines among the eight
    cells around the cell, the cell itself not counted, a number between 0
    and 8. *)
Theorem nearby_mines_spec (self : Minesweeper.t) (cell : Cell) :
  board_consistent self →
  ∃ n, Minesweeper.nearby_mines self cell = inr n
       ∧ n = Z.of_nat (size (filter (adjacent cell) (Minesweeper.mines self)))
       ∧ 0 ≤ n ∧ n ≤ 8.
Proof.
  intros Hcons. eexists. split; [apply nearby_mines_consistent, Hcons|].
  split; [reflexivity|].
  pose proof (size_adjacent cell (Minesweeper.mines self)). lia.
Qed.

Lemma nearby_mines_spec_witness :
  board_consistent board_3x3
  ∧ ∃ n, Minesweeper.nearby_mines board_3x3 (1, 1) = inr n
         ∧ n = Z.of_nat (size (filter (adjacent (1, 1)) (Minesweeper.mines board_3x3)))
         ∧ 0 ≤ n ∧ n ≤ 8.
Proof.
  refine ((λ H, conj H (nearby_mines_spec board_3x3 (1, 1) H)) _).
  exact board_3x3_consistent.
Defined.

(** ** The board's answer as a sentence *)

(** X7: when the engine has no sentences, none of its safe cells is a
    mine of the board and no cell around [cell] is in its mine set, the
    sentence that steps 1 to 4 of the nested function build from the
    board's [nearby_mines(cell)] holds of the board's mines. *)
Theorem recorded_sentence_holds (board : Minesweeper.t) (self : t) (cell : Cell) (n : Z) :
  board_consistent board →
  knowledge self = [] →
  height self = Minesweeper.height board →
  width self = Minesweeper.width board →
  safes self ∩ Minesweeper.mines board = ∅ →
  (∀ c, c ∈ mines self → ¬ adjacent cell c) →
  Minesweeper.nearby_mines board cell = inr n →
  ∃ self', record_cell cell n self = Ok tt self'
           ∧ ∀ s, s ∈ knowledge self' →
                  s = Sentence.init (neighbors_of cell self) n
                  ∧ holds_of (Minesweeper.mines board) s
                  ∧ well_formed s.
Proof.
  intros Hcons HK Hh Hw Hsafe Hmines Hn.
  rewrite nearby_mines_consistent in Hn by exact Hcons. injection Hn as <-.
  rewrite record_cell_result by exact HK. eexists. split; [reflexivity|].
  cbn [knowledge]. intros s Hs.
  destruct (decide (neighbors_of cell self ≠ ∅)); [|inversion Hs].
  apply list_elem_of_singleton in Hs. subst s. split; [reflexivity|].
  assert (Hall : neighbors_of cell self ∩ Minesweeper.mines board
                 = filter (adjacent cell) (Minesweeper.mines board)).
  { apply neighbors_mines_all; [|exact Hsafe|exact Hmines].
    intros c Hc. destruct Hcons as (_ & _ & Hgrid & _).
    unfold on_grid. rewrite Hh, Hw. apply Hgrid, Hc. }
  unfold holds_of, well_formed, Sentence.init. cbn [Sentence.cells Sentence.count].
  rewrite Hall. split; [reflexivity|]. rewrite <- Hall.
  assert ((size (neighbors_of cell self ∩ Minesweeper.mines board)
           ≤ size (neighbors_of cell self))%nat).
  { apply subseteq_size. intros c Hc. apply elem_of_intersection in Hc as [Hc _]. exact Hc. }
  lia.
Qed.

Lemma recorded_sentence_holds_witness :
  (board_consistent board_3x3
   ∧ knowledge (init 3 3) = []
   ∧ height (init 3 3) = Minesweeper.height board_3x3
   ∧ width (init 3 3) = Minesweeper.width board_3x3
   ∧ safes (init 3 3) ∩ Minesweeper.mines board_3x3 = ∅
   ∧ (∀ c, c ∈ mines (init 3 3) → ¬ adjacent (1, 1) c)
   ∧ Minesweeper.nearby_mines board_3x3 (1, 1) = inr 2)
  ∧ ∃ self', record_cell (1, 1) 2 (init 3 3) = Ok tt self'
             ∧ ∀ s, s ∈ knowledge self' →
                    s = Sentence.init (neighbors_of (1, 1) (init 3 3)) 2
                    ∧ holds_of (Minesweeper.mines board_3x3) s
                    ∧ well_formed s.
Proof.
  refine ((λ H1 H2 H3 H4 H5 H6 H7,
            conj (conj H1 (conj H2 (conj H3 (conj H4 (conj H5 (conj H6 H7))))))
                 (recorded_sentence_holds board_3x3 (init 3 3) (1, 1) 2 H1 H2 H3 H4 H5 H6 H7))
          _ _ _ _ _ _ _).
  - exact board_3x3_consistent.
  - reflexivity.
  - reflexivity.
  - reflexivity.
  - by_compute.
  - intros c Hc. destruct (not_elem_of_empty c Hc).
  - vm_compute. reflexivity.
Defined.

(** X8: when a mine of the board around [cell] is already in the engine's
    mine set, the sentence built from the board's [nearby_mines(cell)]
    does not hold of the board: the known mine is left out of the cells
    but still counted. *)
Theorem recorded_sentence_miscounts (board : Minesweeper.t) (self : t)
    (cell mine : Cell) (n : Z) :
  board_consistent board →
  knowledge self = [] →
  mine ∈ mines self → mine ∈ Minesweeper.mines board → adjacent cell mine →
  Minesweeper.nearby_mines board cell = inr n →
  ∃ self', record_cell cell n self = Ok tt self'
           ∧ ∀ s, s ∈ knowledge self' → ¬ holds_of (Minesweeper.mines board) s.
Proof.
  intros Hcons HK Hknown Hmine Hadj Hn.
  rewrite nearby_mines_consistent in Hn by exact Hcons. injection Hn as <-.
  rewrite record_cell_result by exact HK. eexists. split; [reflexivity|].
  cbn [knowledge]. intros s Hs.
  destruct (decide (neighbors_of cell self ≠ ∅)); [|inversion Hs].
  apply list_elem_of_singleton in Hs. subst s.
  unfold holds_of, Sentence.init. cbn [Sentence.cells Sentence.count]. intros Heq.
  assert (Hstrict : neighbors_of cell self ∩ Minesweeper.mines board
                    ⊂ filter (adjacent cell) (Minesweeper.mines board)).
  { split; [apply neighbors_mines_subseteq|]. intros Hsup.
    assert (Hin : mine ∈ neighbors_of cell self ∩ Minesweeper.mines board).
    { apply Hsup, elem_of_filter. auto. }
    apply elem_of_intersection in Hin as [Hin _].
    apply elem_of_neighbors_of in Hin as (_ & _ & _ & Hnot). exact (Hnot Hknown). }
  apply subset_size in Hstrict. lia.
Qed.

Lemma recorded_sentence_miscounts_witness :
  (board_consistent board_3x3
   ∧ knowledge engine_knows_corner = []
   ∧ (0, 0) ∈ mines engine_knows_corner
   ∧ (0, 0) ∈ Minesweeper.mines board_3x3
   ∧ adjacent (1, 1) (0, 0)
   ∧ Minesweeper.nearby_mines board_3x3 (1, 1) = inr 2)
  ∧ ∃ self', record_cell (1, 1) 2 engine_knows_corner = Ok tt self'
             ∧ ∀ s, s ∈ knowledge self' →
                    ¬ holds_of (Minesweeper.mines board_3x3) s.
Proof.
  refine ((λ H1 H2 H3 H4 H5 H6,
            conj (conj H1 (conj H2 (conj H3 (conj H4 (conj H5 H6)))))
                 (recorded_sentence_miscounts board_3x3 engine_knows_corner (1, 1) (0, 0) 2
                    H1 H2 H3 H4 H5 H6))
          _ _ _ _ _ _).
  - exact board_3x3_consistent.
  - reflexivity.
  - by_compute.
  - by_compute.
  - by_compute.
  - vm_compute. reflexivity.
Defined.

(** ** The engine, for its users *)

(** X9: the neighbours the nested function collects for a cell are
    exactly the cells around it that lie on the grid and are in neither
    [safes] nor [mines]; the cell itself is never among them and there are
    at most eight. *)
Theorem neighbors_of_spec (self : t) (cell : Cell) :
  (∀ c, c ∈ neighbors_of cell self
        ↔ adjacent cell c ∧ on_grid self c ∧ (c ∉ safes self) ∧ (c ∉ mines self))
  ∧ (cell ∉ neighbors_of cell self)
  ∧ (size (neighbors_of cell self) ≤ 8)%nat.
Proof.
  split; [intros c; apply elem_of_neighbors_of|]. split.
  - intros Hin. apply elem_of_neighbors_of in Hin as ((Hne & _) & _). congruence.
  - replace (neighbors_of cell self)
      with (filter (adjacent cell) (neighbors_of cell self)); [apply size_adjacent|].
    apply leibniz_equiv. intros c. rewrite elem_of_filter. split; [tauto|].
    intros Hin. split; [|exact Hin]. apply elem_of_neighbors_of in Hin. tauto.
Qed.

(** X10: for every engine and cell, [mark_mine] leaves the engine with the
    cell added to [mines] and nothing else changed, and raises exactly
    when the knowledge base is not empty; likewise [mark_safe] with
    [safes]. *)
Theorem mark_outcome (cell : Cell) (self : t) :
  (state_of (mark_mine cell self) = set_mines (mines self ∪ {[cell]}) self
   ∧ (raises (mark_mine cell self) = true ↔ knowledge self ≠ []))
  ∧ (state_of (mark_safe cell self) = set_safes (safes self ∪ {[cell]}) self
     ∧ (raises (mark_safe cell self) = true ↔ knowledge self ≠ [])).
Proof.
  destruct (knowledge self) as [|s K] eqn:HK.
  - rewrite mark_mine_empty, mark_safe_empty by exact HK. cbn [state_of raises].
    repeat split; try discriminate; intros Hne; destruct Hne; reflexivity.
  - assert (HKne : knowledge self ≠ []) by (rewrite HK; discriminate).
    rewrite mark_mine_nonempty, mark_safe_nonempty by exact HKne. cbn [state_of raises].
    repeat split; try discriminate; intros _; reflexivity.
Qed.

(** X11: from a fresh engine every sequence of calls to [mark_safe],
    [mark_mine] and [add_knowledge] returns, and the engine it leaves has
    no move made, no sentence, and as safe cells and mines exactly the
    cells passed to [mark_safe] and to [mark_mine]: the order of the calls,
    their repetition and the calls to [add_knowledge] make no difference. *)
Theorem run_from_init (h w : Z) (calls : list call) :
  run calls (init h w) = Ok tt (mk h w ∅ (marked_mine calls) (marked_safe calls) []).
Proof.
  rewrite run_empty_knowledge by reflexivity.
  unfold init. cbn [height width moves_made mines safes].
  rewrite !(left_id_L ∅ (∪)). reflexivity.
Qed.

(** X12: after any sequence of calls on a fresh engine, [make_safe_move]
    has a move exactly when some call was a [mark_safe], and the move is a
    cell so marked; [make_random_move] has a move exactly when some grid
    cell was not passed to [mark_mine], and the move is such a cell.
    Calls to [add_knowledge] change neither answer. *)
Theorem moves_after_calls (set_order : gset Cell → list Cell) (randbelow : nat → nat)
    (h w : Z) (calls : list call) :
  (∀ X, set_order X ≡ₚ elements X) →
  (∀ n, (0 < n)%nat → (randbelow n < n)%nat) →
  ∃ self,
    run calls (init h w) = Ok tt self
    ∧ (∃ r, make_safe_move set_order self = Ok r self
            ∧ (r = None ↔ ∀ cell, MarkSafe cell ∉ calls)
            ∧ (∀ cell, r = Some cell → MarkSafe cell ∈ calls))
    ∧ (∃ r, make_random_move set_order randbelow self = Ok r self
            ∧ (r = None ↔ ∀ cell, on_grid self cell → MarkMine cell ∈ calls)
            ∧ (∀ cell, r = Some cell → on_grid self cell ∧ MarkMine cell ∉ calls)).
Proof.
  intros Horder Hdraw. eexists. split; [apply run_empty_knowledge; reflexivity|].
  set (self := mk _ _ _ _ _ _).
  assert (Hsafes : ∀ cell, cell ∈ safes self ↔ MarkSafe cell ∈ calls).
  { intros cell. unfold self. cbn [safes init]. rewrite (left_id_L ∅ (∪)).
    apply elem_of_marked_safe. }
  assert (Hmines : ∀ cell, cell ∈ mines self ↔ MarkMine cell ∈ calls).
  { intros cell. unfold self. cbn [mines init]. rewrite (left_id_L ∅ (∪)).
    apply elem_of_marked_mine. }
  assert (Hmoves : moves_made self = ∅) by reflexivity.
  split.
  - eexists. split; [apply make_safe_move_result|].
    destruct (List.find _ _) as [cell|] eqn:Hfind.
    + apply find_some in Hfind as [Hin _].
      apply list_elem_of_In, (elem_of_set_order _ Horder), Hsafes in Hin.
      split; [split; [discriminate | intros Hnone; destruct (Hnone cell Hin)]|].
      intros cell' [= <-]. exact Hin.
    + split; [|discriminate]. split; [|reflexivity]. intros _ cell Hcell.
      apply Hsafes, (elem_of_set_order _ Horder), list_elem_of_In in Hcell.
      apply (find_none _ _ Hfind) in Hcell. apply bool_decide_eq_false in Hcell.
      apply Hcell. rewrite Hmoves. apply not_elem_of_empty.
  - pose proof (make_random_move_result set_order randbelow Horder self) as Hres.
    cbv zeta in Hres. eexists. split; [exact Hres|].
    set (candidates := set_order (all_moves self ∖ moves_made self ∖ mines self)) in *.
    assert (Hmem : ∀ cell, cell ∈ candidates ↔ on_grid self cell ∧ MarkMine cell ∉ calls).
    { intros cell. unfold candidates. rewrite (elem_of_set_order _ Horder).
      rewrite !elem_of_difference, elem_of_all_moves, Hmoves, Hmines.
      pose proof (not_elem_of_empty (C := gset Cell) cell). tauto. }
    split.
    + split.
      * intros Hnone cell Hgrid.
        destruct (decide (cell ∈ mines self)) as [Hin|Hnot]; [apply Hmines, Hin|].
        assert (Hcell : cell ∈ candidates).
        { apply Hmem. split; [exact Hgrid|]. intros Hin. apply Hnot, Hmines, Hin. }
        apply lookup_ge_None in Hnone.
        destruct candidates as [|c cs]; [inversion Hcell|].
        specialize (Hdraw (length (c :: cs))). simpl in *. lia.
      * intros Hall. destruct candidates as [|c cs]; [reflexivity|].
        assert (Hc : c ∈ c :: cs) by apply list_elem_of_here.
        apply Hmem in Hc as [Hgrid Hnot]. destruct (Hnot (Hall c Hgrid)).
    + intros cell Hcell. apply Hmem. eapply list_elem_of_lookup_2. exact Hcell.
Qed.

Lemma moves_after_calls_witness :
  let order : gset Cell → list Cell := elements in
  let draw : nat → nat := λ _, 0%nat in
  let calls := [AddKnowledge (0, 0) 1; MarkMine (0, 1)] in
  ((∀ X, order X ≡ₚ elements X) ∧ (∀ n, (0 < n)%nat → (draw n < n)%nat))
  ∧ ∃ self,
      run calls (init 2 2) = Ok tt self
      ∧ (∃ r, make_safe_move order self = Ok r self
              ∧ (r = None ↔ ∀ cell, MarkSafe cell ∉ calls)
              ∧ (∀ cell, r = Some cell → MarkSafe cell ∈ calls))
      ∧ (∃ r, make_random_move order draw self = Ok r self
              ∧ (r = None ↔ ∀ cell, on_grid self cell → MarkMine cell ∈ calls)
              ∧ (∀ cell, r = Some cell → on_grid self cell ∧ MarkMine cell ∉ calls)).
Proof.
  cbv zeta.
  refine ((λ H1 H2, conj (conj H1 H2)
                         (moves_after_calls elements (λ _, 0%nat) 2 2 _ H1 H2)) _ _).
  - intros X. reflexivity.
  - intros n Hn. lia.
Defined.

(** X13: for every sentence the two queries return disjoint sets, each
    either empty or all the sentence's cells. *)
Theorem known_sets_disjoint (s : Sentence.t) :
  ∃ found_mines found_safes,
    Sentence.known_mines s = Ok found_mines s
    ∧ Sentence.known_safes s = Ok found_safes s
    ∧ found_mines ∩ found_safes = ∅
    ∧ (found_mines = ∅ ∨ found_mines = Sentence.cells s)
    ∧ (found_safes = ∅ ∨ found_safes = Sentence.cells s).
Proof.
  eexists _, _. split; [apply known_mines_result|]. split; [apply known_safes_result|].
  destruct (decide (Z.of_nat (size (Sentence.cells s)) = Sentence.count s)) as [Hlen|_];
    destruct (decide (Sentence.count s = 0)) as [Hzero|_].
  - assert (Hempty : Sentence.cells s = ∅).
    { apply leibniz_equiv, size_empty_inv. lia. }
    rewrite Hempty. split; [apply (idemp_L (∩))|auto].
  - split; [apply (right_absorb_L ∅ (∩))|auto].
  - split; [apply (left_absorb_L ∅ (∩))|auto].
  - split; [apply (left_absorb_L ∅ (∩))|auto].
Qed.

(** ** The nested function, for its readers *)

(** X14: what a pass infers is a list without repetition of sentences
    that are not in the knowledge base; each has at least one cell and is
    the difference of two known sentences, the first over a proper subset
    of the second's cells. *)
Theorem infer_all_new (known : list Sentence.t) :
  NoDup (infer_all known)
  ∧ ∀ s, s ∈ infer_all known →
      (s ∉ known)
      ∧ Sentence.cells s ≠ ∅
      ∧ ∃ s1 s2, s1 ∈ known ∧ s2 ∈ known
                 ∧ Sentence.cells s1 ⊂ Sentence.cells s2
                 ∧ s = Sentence.init (Sentence.cells s2 ∖ Sentence.cells s1)
                         (Sentence.count s2 - Sentence.count s1).
Proof.
  destruct (infer_all_fresh known) as [Hfresh Hnodup]. split; [exact Hnodup|].
  intros s Hs. split; [apply Hfresh, Hs|].
  apply infer_all_elem in Hs as (s1 & s2 & Hin1 & Hin2 & Hsub & Hdiff & ->).
  split; [exact Hdiff|]. exists s1, s2. repeat (split; [assumption|]).
  split; [|reflexivity]. split; [exact Hsub|].
  intros Hsup. apply Hdiff. apply leibniz_equiv, elem_of_equiv_empty.
  intros c Hc. apply elem_of_difference in Hc as [Hc Hnc]. exact (Hnc (Hsup c Hc)).
Qed.

(** X15: a pass infers nothing exactly when the knowledge base is closed
    under subset inference: for any two different sentences, the first
    over a proper subset of the second's cells, their difference is
    already known. *)
Theorem infer_all_fixed_point (known : list Sentence.t) :
  infer_all known = [] ↔ closed_under_inference known.
Proof.
  split; [intros Hnil; exact (infer_all_nil known Hnil)|].
  intros Hclosed. destruct (infer_all known) as [|s new] eqn:Hnew; [reflexivity|].
  assert (Hs : s ∈ infer_all known) by (rewrite Hnew; apply list_elem_of_here).
  destruct (infer_all_fresh known) as [Hfresh _].
  pose proof (Hfresh s Hs) as Hnot.
  apply infer_all_elem in Hs as (s1 & s2 & Hin1 & Hin2 & Hsub & Hdiff & ->).
  destruct Hnot. apply Hclosed; try assumption.
  intros ->. apply Hdiff. apply leibniz_equiv, elem_of_equiv_empty.
  intros c Hc. apply elem_of_difference in Hc as [Hc Hnc]. exact (Hnc Hc).
Qed.

(** X16: if every sentence of the knowledge base holds of a mine layout,
    so does every sentence a pass infers, whose count then lies between 0
    and the number of its cells. *)
Theorem pass_inference_holds (layout : gset Cell) (known : list Sentence.t)
    (s : Sentence.t) :
  (∀ k, k ∈ known → holds_of layout k) →
  s ∈ infer_all known →
  holds_of layout s ∧ well_formed s.
Proof.
  intros Hknown Hs.
  apply infer_all_elem in Hs as (s1 & s2 & Hin1 & Hin2 & Hsub & _ & ->).
  apply difference_holds; [apply Hknown, Hin1 | apply Hknown, Hin2 | exact Hsub].
Qed.

Lemma pass_inference_holds_witness :
  let s := Sentence.init {[ (0, 2) ]} 0 in
  ((∀ k, k ∈ [sentence_abc; sentence_ab] → holds_of layout_a k)
   ∧ s ∈ infer_all [sentence_abc; sentence_ab])
  ∧ (holds_of layout_a s ∧ well_formed s).
Proof.
  cbv zeta.
  refine ((λ H1 H2, conj (conj H1 H2)
                         (pass_inference_holds layout_a [sentence_abc; sentence_ab] _ H1 H2))
          _ _).
  - intros k Hk. rewrite !elem_of_cons, elem_of_nil in Hk.
    destruct Hk as [-> | [-> | []]]; unfold holds_of; vm_compute; reflexivity.
  - rewrite infer_all_scenario_4. apply list_elem_of_here.
Defined.

(** X17: whatever the nested function does before it returns or raises,
    it only adds to the engine: the grid is unchanged, [moves_made],
    [safes] and [mines] keep all their cells, and the knowledge base keeps
    its sentences, in order, in front of any new one. *)
Theorem nested_only_adds (set_order : gset Cell → list Cell) (fuel : nat)
    (cell : Cell) (count : Z) (self : t) (r : result t unit) :
  add_knowledge_nested set_order fuel cell count self = Some r →
  height (state_of r) = height self
  ∧ width (state_of r) = width self
  ∧ moves_made self ⊆ moves_made (state_of r)
  ∧ safes self ⊆ safes (state_of r)
  ∧ mines self ⊆ mines (state_of r)
  ∧ knowledge self `prefix_of` knowledge (state_of r).
Proof.
  intros Hr. change (grows self (state_of r)).
  unfold add_knowledge_nested in Hr.
  pose proof (only_adds_record_cell cell count self) as Hrec.
  destruct (record_cell cell count self) as [[] self'|e self']; simpl in Hrec.
  - eapply grows_trans; [exact Hrec | eapply propagate_grows, Hr].
  - injection Hr as <-. exact Hrec.
Qed.

Lemma nested_only_adds_witness :
  let r : result t unit := Ok tt engine_after_centre in
  add_knowledge_nested elements 1 (1, 1) 2 (init 3 3) = Some r
  ∧ (height (state_of r) = height (init 3 3)
     ∧ width (state_of r) = width (init 3 3)
     ∧ moves_made (init 3 3) ⊆ moves_made (state_of r)
     ∧ safes (init 3 3) ⊆ safes (state_of r)
     ∧ mines (init 3 3) ⊆ mines (state_of r)
     ∧ knowledge (init 3 3) `prefix_of` knowledge (state_of r)).
Proof.
  cbv zeta.
  refine ((λ H, conj H (nested_only_adds elements 1 (1, 1) 2 (init 3 3) _ H)) _).
  vm_compute. reflexivity.
Defined.

Lemma nested_first_observation_witness :
  let self := init 3 3 in
  let neighbors := neighbors_of (1, 1) self in
  let recorded :=
    mk (height self) (width self) (moves_made self ∪ {[ (1, 1) ]}) (mines self)
       (safes self ∪ {[ (1, 1) ]})
       (if decide (neighbors ≠ ∅) then [Sentence.init neighbors 0] else []) in
  ((∀ X : gset Cell, elements X ≡ₚ elements X) ∧ knowledge self = [])
  ∧ (if decide (neighbors ≠ ∅ ∧ 0 = Z.of_nat (size neighbors)) then
       ∃ x, x ∈ neighbors
            ∧ add_knowledge_nested elements 1 (1, 1) 0 self =
                Some (Raised (AttributeError "Sentence" "mines")
                        (set_mines (mines recorded ∪ {[x]}) recorded))
     else if decide (neighbors ≠ ∅ ∧ 0 = 0) then
       ∃ x, x ∈ neighbors
            ∧ add_knowledge_nested elements 1 (1, 1) 0 self =
                Some (Raised (AttributeError "Sentence" "safe")
                        (set_safes (safes recorded ∪ {[x]}) recorded))
     else
       add_knowledge_nested elements 1 (1, 1) 0 self = Some (Ok tt recorded)).
Proof.
  cbv zeta.
  refine ((λ H1 H2, conj (conj H1 H2)
                         (nested_first_observation elements 0 (1, 1) 0 (init 3 3) H1 H2))
          _ _).
  - intros X. reflexivity.
  - reflexivity.
Defined.

(** X19: the loop of the nested function does not stop on every engine.
    On an engine whose safe cell is [(0,0)], whose mines are the other
    three cells of a 2 by 2 grid, and whose knowledge base holds two
    sentences over all four cells with counts 1 and 3 and a sentence over
    [(0,0)], every pass infers a new sentence and sets [changed], so no
    number of passes ends the loop. *)
Theorem nested_loop_never_stops (set_order : gset Cell → list Cell) (fuel : nat)
    (self : t) :
  (∀ X, set_order X ≡ₚ elements X) →
  disagreeing self →
  propagate set_order fuel self = None.
Proof.
  intros Horder Hself. apply propagate_never_returns; [|exact Hself].
  intros X c Hc. apply (elem_of_set_order set_order Horder), Hc.
Qed.

Lemma nested_loop_never_stops_witness :
  ((∀ X : gset Cell, elements X ≡ₚ elements X) ∧ disagreeing disagreeing_engine)
  ∧ propagate elements 5 disagreeing_engine = None.
Proof.
  refine ((λ H1 H2, conj (conj H1 H2)
                         (nested_loop_never_stops elements 5 disagreeing_engine H1 H2)) _ _).
  - intros X. reflexivity.
  - exact disagreeing_engine_disagreeing.
Defined.
